(** * aclgenerator: the shared core of the ACL generators

    A shallow embedding of [lib/aclgenerator.py]: the generator-side [Term]
    helpers ([NormalizeAddressFamily], [NormalizeIcmpTypes]) and the
    [ACLGenerator] base class (keyword validation at construction,
    [FixHighPorts], [FixTermLength]), followed by the properties the
    specification states about them. *)

From Stdlib Require Import ZArith Lia.
From stdpp Require Import base decidable option list sorting strings gmap fin_maps.

Set Warnings "-register-all,-clear-no-such-hyp".

Local Open Scope Z_scope.

(** ** Python values *)

(** Hashable scalars: what an address family argument can be ([4], ['inet'])
    and what [NormalizeIcmpTypes] puts in its result list. *)
Inductive pyatom : Type :=
  | AInt (n : Z)
  | AStr (s : string).

#[global] Instance pyatom_eq_dec : EqDecision pyatom.
Proof. solve_decision. Defined.

#[global] Instance pyatom_countable : Countable pyatom.
Proof.
  refine (inj_countable'
            (λ a, match a with AInt n => inl n | AStr s => inr s end)
            (λ x, match x with inl n => AInt n | inr s => AStr s end) _).
  by intros [].
Defined.

(** Attribute values of a policy term, as far as truthiness sees them. *)
Inductive pyval : Type :=
  | PNone
  | PBool (b : bool)
  | PAtom (a : pyatom)
  | PList (l : list pyval).

(** Python truthiness: [None], [False], [0], [''] and [[]] are falsy. *)
Definition truthy (v : pyval) : bool :=
  match v with
  | PNone => false
  | PBool b => b
  | PAtom (AInt n) => negb (Z.eqb n 0)
  | PAtom (AStr s) => negb (String.eqb s "")
  | PList l => match l with [] => false | _ :: _ => true end
  end.

(** The newline character of the ['\n'] escapes in the messages. *)
Definition NL : string := String (Ascii.ascii_of_nat 10) "".

Definition PStr (s : string) : pyval := PAtom (AStr s).
Definition PInt (n : Z) : pyval := PAtom (AInt n).
Definition PStrs (l : list string) : pyval := PList (PStr <$> l).

(** ** Exceptions *)

(** The exception classes of the module (all subclasses of [Error]) and the
    builtin [KeyError] a failed dict subscript raises.  [InvalidReference] is
    not a Python exception: it is what the model answers when a location
    outside the object store is read, which no Python run can do. *)
Inductive ErrorClass : Type :=
  | Error_
  | NoPlatformPolicyError
  | UnsupportedFilter
  | UnknownIcmpTypeError
  | MismatchIcmpInetError
  | EstablishedError
  | UnsupportedAF
  | DuplicateTermError
  | UnsupportedFilterError
  | TermNameTooLongError
  | KeyError
  | InvalidReference.

#[global] Instance ErrorClass_eq_dec : EqDecision ErrorClass.
Proof. solve_decision. Defined.

(** A raised exception: its class and the values interpolated into its
    message, in the order of the format arguments. *)
Record Exn : Type := MkExn { exn_class : ErrorClass; exn_args : list pyval }.

Inductive result (A : Type) : Type :=
  | Ok (a : A)
  | Raise (e : Exn).
Arguments Ok {A} a.
Arguments Raise {A} e.

Definition raise {A : Type} (c : ErrorClass) (args : list pyval) : result A :=
  Raise (MkExn c args).

#[global] Instance result_ret : MRet result := λ A a, Ok a.

#[global] Instance result_bind : MBind result := λ A B k m,
  match m with
  | Ok a => k a
  | Raise e => Raise e
  end.

Definition raises {A : Type} (r : result A) (c : ErrorClass) : Prop :=
  ∃ args, r = raise c args.

(** ** class Term *)

Module Term.

(** [AF_MAP] and its flipped dict [AF_MAP_BY_NUMBER].  The flipped dict is
    built from the items of [AF_MAP]; two names map to 4, so which name 4 maps
    back to depends on the iteration order, but its keys do not. *)
Definition AF_MAP : gmap string Z :=
  list_to_map [("inet", 4); ("inet6", 6); ("bridge", 4)].

Definition AF_MAP_BY_NUMBER : gmap Z string :=
  list_to_map ((λ kv : string * Z, (kv.2, kv.1)) <$> map_to_list AF_MAP).

(** [af in self.AF_MAP_BY_NUMBER] *)
Definition in_AF_MAP_BY_NUMBER (af : pyatom) : bool :=
  match af with
  | AInt n => bool_decide (is_Some (AF_MAP_BY_NUMBER !! n))
  | AStr _ => false
  end.

(** [PROTO_MAP] and its flipped dict [PROTO_MAP_BY_NUMBER], built like
    [AF_MAP_BY_NUMBER]. *)
Definition PROTO_MAP : gmap string Z :=
  list_to_map
    [("ip", 0); ("icmp", 1); ("igmp", 2); ("ggp", 3); ("ipencap", 4); ("tcp", 6);
     ("egp", 8); ("igp", 9); ("udp", 17); ("rdp", 27); ("ipv6", 41);
     ("ipv6-route", 43); ("ipv6-frag", 44); ("rsvp", 46); ("gre", 47);
     ("esp", 50); ("ah", 51); ("icmpv6", 58); ("ipv6-nonxt", 59);
     ("ipv6-opts", 60); ("ospf", 89); ("ipip", 94); ("pim", 103); ("vrrp", 112);
     ("l2tp", 115); ("sctp", 132)].

Definition PROTO_MAP_BY_NUMBER : gmap Z string :=
  list_to_map ((λ kv : string * Z, (kv.2, kv.1)) <$> map_to_list PROTO_MAP).

(** [self.AF_MAP.get(af)]: only a string can be a key of [AF_MAP]. *)
Definition AF_MAP_lookup (af : pyatom) : option Z :=
  match af with
  | AStr s => AF_MAP !! s
  | AInt _ => None
  end.

(** Modelled from the spec: [policy.Term.ICMP_TYPE], which this module only
    imports; a mapping keyed by the numeric address family (4 and 6) whose
    values map an ICMP type name to its numeric code. *)
Record IcmpTypeTable : Type := MkIcmpTypeTable {
  icmp_types_inet : gmap string Z;
  icmp_types_inet6 : gmap string Z
}.

(** [self.ICMP_TYPE[af]]; any key other than 4 and 6 is a [KeyError]. *)
Definition ICMP_TYPE_getitem (T : IcmpTypeTable) (af : pyatom) : result (gmap string Z) :=
  match af with
  | AInt 4 => Ok (icmp_types_inet T)
  | AInt 6 => Ok (icmp_types_inet6 T)
  | _ => raise KeyError [PAtom af]
  end.

Section Methods.

(** The generator term wraps a policy term ([self.term]); its name goes into
    the error messages.  [ICMP_TYPE] is the class attribute. *)
Variable ICMP_TYPE : IcmpTypeTable.
Variable self_term_name : string.

Definition NormalizeAddressFamily (af : pyatom) : result pyatom :=
  if in_AF_MAP_BY_NUMBER af then Ok af
  else match AF_MAP_lookup af with
       | Some n => Ok (AInt n)
       | None => raise UnsupportedAF [PAtom af; PStr self_term_name]
       end.

(** The loop that rejects the first name missing from the table. *)
Fixpoint check_icmp_types (tbl : gmap string Z) (icmp_types : list string) : result unit :=
  match icmp_types with
  | [] => Ok tt
  | icmptype :: rest =>
      match tbl !! icmptype with
      | None => raise UnknownIcmpTypeError
                  [PStr (NL +:+ "Unrecognized ICMP-type ("); PStr icmptype;
                   PStr ") specified in term "; PStr self_term_name]
      | Some _ => check_icmp_types tbl rest
      end
  end.

(** [[self.ICMP_TYPE[af][x] for x in icmp_types]] *)
Fixpoint icmp_codes (tbl : gmap string Z) (icmp_types : list string) : result (list Z) :=
  match icmp_types with
  | [] => Ok []
  | x :: rest =>
      match tbl !! x with
      | None => raise KeyError [PStr x]
      | Some c => cs ← icmp_codes tbl rest; Ok (c :: cs)
      end
  end.

Definition NormalizeIcmpTypes (icmp_types protocols : list string) (af : pyatom)
  : result (list pyatom) :=
  match icmp_types with
  | [] => Ok [AStr ""]
  | _ :: _ =>
      if bool_decide (protocols ≠ ["icmp"]) && bool_decide (protocols ≠ ["icmpv6"])
      then raise UnsupportedFilterError
             [PStr "icmp-types specified for non-icmp protocols in term: ";
              PStr self_term_name]
      else
        af ← NormalizeAddressFamily af;
        if (bool_decide (af ≠ AInt 4) && bool_decide (protocols = ["icmp"]))
           || (bool_decide (af ≠ AInt 6) && bool_decide (protocols = ["icmpv6"]))
        then raise MismatchIcmpInetError
               [PStr "ICMP/ICMPv6 mismatch with address family IPv4/IPv6 in term";
                PStr self_term_name]
        else
          tbl ← ICMP_TYPE_getitem ICMP_TYPE af;
          check_icmp_types tbl icmp_types;;
          rval ← icmp_codes tbl icmp_types;
          Ok (AInt <$> merge_sort Z.le rval)
  end.

End Methods.

End Term.

(** ** Policy objects and the object store *)

(** Python objects are shared by reference.  A policy term and the list held
    in its [destination_port] attribute are the two kinds of object this
    module writes to, so both live in a store and are named by location; the
    other list-valued attributes are only ever read here and are kept by
    value. *)
Definition loc : Type := nat.

(** A port range is a pair [(low, high)]. *)
Definition PortRange : Type := Z * Z.

(** The attributes of a [policy.Term] object this module reads by name; the
    rest of its [__dict__] is [term_attrs]. *)
Record PolicyTerm : Type := MkPolicyTerm {
  term_name : string;
  term_protocol : list string;
  term_option : list string;
  term_destination_port : loc;
  term_platform : list string;
  term_platform_exclude : list string;
  term_attrs : list (string * pyval)
}.

Record Heap : Type := MkHeap {
  terms : gmap loc PolicyTerm;
  lists : gmap loc (list PortRange)
}.

(** [header.platforms] *)
Record Header : Type := MkHeader { header_platforms : list string }.

(** [pol.filters]: the headers, each with its terms. *)
Record Policy : Type := MkPolicy { filters : list (Header * list loc) }.

(** Computations that read and write the store and may raise.  An exception
    does not undo the writes made before it. *)
Definition M (A : Type) : Type := Heap → result A * Heap.

#[global] Instance M_ret : MRet M := λ A a h, (Ok a, h).

#[global] Instance M_bind : MBind M := λ A B k m h,
  match m h with
  | (Ok a, h') => k a h'
  | (Raise e, h') => (Raise e, h')
  end.

Definition throw {A : Type} (c : ErrorClass) (args : list pyval) : M A :=
  λ h, (raise c args, h).

Definition modify (f : Heap → Heap) : M unit := λ h, (Ok tt, f h).

Definition get_term (l : loc) : M PolicyTerm := λ h,
  match terms h !! l with
  | Some t => (Ok t, h)
  | None => (raise InvalidReference [PInt (Z.of_nat l)], h)
  end.

Definition get_list (l : loc) : M (list PortRange) := λ h,
  match lists h !! l with
  | Some ps => (Ok ps, h)
  | None => (raise InvalidReference [PInt (Z.of_nat l)], h)
  end.

(** A new list object holding [ps]. *)
Definition new_list (ps : list PortRange) : M loc := λ h,
  let l := fresh (dom (lists h)) in
  (Ok l, MkHeap (terms h) (<[l := ps]> (lists h))).

(** A new term object holding [t]. *)
Definition new_term (t : PolicyTerm) : M loc := λ h,
  let l := fresh (dom (terms h)) in
  (Ok l, MkHeap (<[l := t]> (terms h)) (lists h)).

Definition set_destination_port (t : PolicyTerm) (l : loc) : PolicyTerm :=
  MkPolicyTerm (term_name t) (term_protocol t) (term_option t) l
               (term_platform t) (term_platform_exclude t) (term_attrs t).

(** [copy.deepcopy(term)]: a new term object whose mutable parts are new
    objects with the same contents. *)
Definition deepcopy (term : loc) : M loc :=
  t ← get_term term;
  ps ← get_list (term_destination_port t);
  l ← new_list ps;
  new_term (set_destination_port t l).

(** [term.destination_port.append(p)]: the list object is updated in place. *)
Definition destination_port_append (term : loc) (p : PortRange) : M unit :=
  t ← get_term term;
  ps ← get_list (term_destination_port t);
  modify (λ h, MkHeap (terms h) (<[term_destination_port t := ps ++ [p]]> (lists h))).

(** [term.destination_port = l]: the attribute of the term object is rebound. *)
Definition destination_port_assign (term : loc) (l : loc) : M unit :=
  t ← get_term term;
  modify (λ h, MkHeap (<[term := set_destination_port t l]> (terms h)) (lists h)).

(** ** Port-list collapsing *)

Module Collapse.

(** Modelled from the spec: [policy.Term.CollapsePortList], a method of the
    policy module that is not part of this file.  The port list is sorted by
    lower bound; then every interval whose lower bound is at most the previous
    interval's upper bound plus one is merged into the previous interval, whose
    upper bound becomes the maximum of the two. *)
Fixpoint insert_by_low (p : PortRange) (l : list PortRange) : list PortRange :=
  match l with
  | [] => [p]
  | q :: l' => if p.1 <=? q.1 then p :: l else q :: insert_by_low p l'
  end.

Fixpoint sort_by_low (l : list PortRange) : list PortRange :=
  match l with
  | [] => []
  | p :: l' => insert_by_low p (sort_by_low l')
  end.

Fixpoint merge_into (prev : PortRange) (l : list PortRange) : list PortRange :=
  match l with
  | [] => [prev]
  | p :: l' =>
      if p.1 <=? prev.2 + 1
      then merge_into (prev.1, Z.max prev.2 p.2) l'
      else prev :: merge_into p l'
  end.

Definition merge_sorted (l : list PortRange) : list PortRange :=
  match l with
  | [] => []
  | p :: l' => merge_into p l'
  end.

Definition CollapsePortList (ports : list PortRange) : list PortRange :=
  merge_sorted (sort_by_low ports).

End Collapse.

(** ** Strings *)

(** [s[:n]] *)
Fixpoint str_take (n : nat) (s : string) : string :=
  match n, s with
  | S n', String c s' => String c (str_take n' s')
  | _, _ => ""
  end.

(** [re.sub(word, abbrev, s)] for a pattern without regular-expression
    metacharacters and a replacement without backslash, which every entry of
    the abbreviation table of the source is ([literal_table] below; what is
    proved of [re_sub] is proved of such tables only): the occurrences of
    [word] are found from left to right, each search resuming after the
    previous occurrence, and each is replaced by [abbrev].
    [skip] counts the characters of the current occurrence still to drop. *)
Fixpoint re_sub_from (word abbrev : string) (skip : nat) (s : string) : string :=
  match s with
  | "" => ""
  | String c s' =>
      match skip with
      | S k => re_sub_from word abbrev k s'
      | O =>
          if String.prefix word s
          then abbrev +:+ re_sub_from word abbrev (String.length word - 1) s'
          else String c (re_sub_from word abbrev 0 s')
      end
  end.

(** The empty pattern matches before every character and at the end. *)
Fixpoint re_sub_empty (abbrev : string) (s : string) : string :=
  match s with
  | "" => abbrev
  | String c s' => abbrev +:+ String c (re_sub_empty abbrev s')
  end.

Definition re_sub (word abbrev s : string) : string :=
  if decide (word = "") then re_sub_empty abbrev s
  else re_sub_from word abbrev 0 s.

(** The characters that have a meaning of their own in a regular
    expression. *)
Definition regex_special (c : Ascii.ascii) : bool :=
  existsb (Ascii.eqb c) (String.list_ascii_of_string ".^$*+?{}[]\|()").

(** A pattern that stands for itself: none of its characters is special. *)
Fixpoint literal_word (w : string) : bool :=
  match w with
  | "" => true
  | String c w' => negb (regex_special c) && literal_word w'
  end.

(** A replacement that stands for itself: it has no backslash, the one
    character [re.sub] gives a meaning to in a replacement. *)
Fixpoint literal_replacement (a : string) : bool :=
  match a with
  | "" => true
  | String c a' => negb (Ascii.eqb c (Ascii.ascii_of_nat 92)) && literal_replacement a'
  end.

(** The abbreviation tables on which [re_sub] is what [re.sub] computes:
    every word is non-empty and literal, every abbreviation is literal.  The
    comment above the table of the source allows regular expressions as
    words; its entries, and the tables considered here, have none. *)
Definition literal_entry (entry : string * string) : bool :=
  negb (String.eqb entry.1 "") && literal_word entry.1 && literal_replacement entry.2.

Definition literal_table (table : list (string * string)) : Prop :=
  forallb literal_entry table = true.

(** ** class ACLGenerator *)

Module ACLGenerator.

(** The class attributes a platform generator may override, and its
    [_TranslatePolicy] method. *)
Record Generator : Type := MkGenerator {
  _PLATFORM : option string;
  _DEFAULT_PROTOCOL : string;
  _SUPPORTED_AF : gset pyatom;
  _FILTER_BLACKLIST : gmap pyatom (gset string);
  _REQUIRED_KEYWORDS : gset string;
  _OPTIONAL_SUPPORTED_KEYWORDS : gset string;
  _ABBREVIATION_TABLE : list (string * string);
  _TERM_MAX_LENGTH : nat;
  _TranslatePolicy : Policy → pyval → M unit
}.

(** [self._PLATFORM] as a value: [None] in the base class. *)
Definition platform_val (p : option string) : pyval :=
  match p with
  | Some s => PStr s
  | None => PNone
  end.

(** [self._PLATFORM in l] for a list of platform names. *)
Definition platform_in (p : option string) (l : list string) : bool :=
  match p with
  | Some s => bool_decide (s ∈ l)
  | None => false
  end.

Definition nonempty {A : Type} (l : list A) : bool :=
  match l with
  | [] => false
  | _ :: _ => true
  end.

(** *** __init__: keyword validation *)

Definition _VALID_KEYWORDS (self : Generator) : gset string :=
  _REQUIRED_KEYWORDS self ∪ _OPTIONAL_SUPPORTED_KEYWORDS self.

Definition port_val (p : PortRange) : pyval := PList [PInt p.1; PInt p.2].

(** [term.__dict__.items()], in the order the dict yields them. *)
Definition term_items (t : PolicyTerm) : M (list (string * pyval)) :=
  ps ← get_list (term_destination_port t);
  mret ([("name", PStr (term_name t));
         ("protocol", PStrs (term_protocol t));
         ("option", PStrs (term_option t));
         ("destination_port", PList (port_val <$> ps));
         ("platform", PStrs (term_platform t));
         ("platform_exclude", PStrs (term_platform_exclude t))]
        ++ term_attrs t).

(** The test of the inner loop: a populated attribute that is neither a valid
    keyword nor a private [flatten...] attribute. *)
Definition unsupported_keyword (self : Generator) (item : string * pyval) : bool :=
  truthy item.2
  && bool_decide (item.1 ∉ _VALID_KEYWORDS self)
  && negb (String.prefix "flatten" item.1).

Definition unsupported_keywords (self : Generator) (items : list (string * pyval))
  : list string :=
  fst <$> filter (λ item, unsupported_keyword self item = true) items.

(** The two [continue] statements: the term is not active on the platform. *)
Definition term_skipped (self : Generator) (t : PolicyTerm) : bool :=
  (nonempty (term_platform t) && negb (platform_in (_PLATFORM self) (term_platform t)))
  || (nonempty (term_platform_exclude t)
      && platform_in (_PLATFORM self) (term_platform_exclude t)).

(** The body of [for term in terms]. *)
Definition verify_term (self : Generator) (term : loc) : M unit :=
  t ← get_term term;
  if nonempty (term_platform t) && negb (platform_in (_PLATFORM self) (term_platform t))
  then mret tt
  else if nonempty (term_platform_exclude t)
          && platform_in (_PLATFORM self) (term_platform_exclude t)
  then mret tt
  else
    items ← term_items t;
    let err := unsupported_keywords self items in
    if nonempty err
    then throw UnsupportedFilterError
           [PStr NL; PStr (term_name t);
            PStr "unsupported optional keywords for target";
            platform_val (_PLATFORM self); PStr "in policy:";
            PStr (String.concat " " err)]
    else mret tt.

Fixpoint verify_terms (self : Generator) (ts : list loc) : M unit :=
  match ts with
  | [] => mret tt
  | term :: rest => verify_term self term;; verify_terms self rest
  end.

(** [for header, terms in pol.filters] *)
Fixpoint verify_filters (self : Generator) (fs : list (Header * list loc)) : M unit :=
  match fs with
  | [] => mret tt
  | (header, ts) :: rest =>
      (if platform_in (_PLATFORM self) (header_platforms header)
       then verify_terms self ts
       else mret tt);;
      verify_filters self rest
  end.

Definition __init__ (self : Generator) (pol : Policy) (exp_info : pyval) : M unit :=
  verify_filters self (filters pol);;
  _TranslatePolicy self pol exp_info.

(** *** FixHighPorts *)

(** [opt.find('established') == 0] *)
Definition is_established (opt : string) : bool := String.prefix "established" opt.

(** The loop over [term.option]; it returns the value of the variable [mod] at the
    final [return], which is [term] unless the copy was made. *)
Fixpoint scan_options (term : loc) (t : PolicyTerm) (protocols : gset string)
    (all_protocols_stateful : bool) (opts : list string) : M loc :=
  match opts with
  | [] => mret term
  | opt :: rest =>
      if is_established opt then
        let unstateful_protocols := protocols ∖ {["tcp"; "udp"]} in
        if bool_decide (unstateful_protocols = ∅) then
          mod' ← deepcopy term;
          destination_port_append mod' (1024, 65535);;
          m ← get_term mod';
          ps ← get_list (term_destination_port m);
          l ← new_list (Collapse.CollapsePortList ps);
          destination_port_assign mod' l;;
          mret mod'
        else if negb all_protocols_stateful then
          throw EstablishedError
            [PStr "Established option supplied with inappropriate protocol(s)";
             PStrs (elements unstateful_protocols); PStr "in term";
             PStr (term_name t)]
        else mret term
      else scan_options term t protocols all_protocols_stateful rest
  end.

(** The protocols the term applies to. *)
Definition effective_protocols (self : Generator) (t : PolicyTerm) : gset string :=
  if nonempty (term_protocol t) then list_to_set (term_protocol t)
  else {[ _DEFAULT_PROTOCOL self ]}.

Definition FixHighPorts (self : Generator) (term : loc) (af : pyatom)
    (all_protocols_stateful : bool) : M loc :=
  t ← get_term term;
  let protocols := effective_protocols self t in
  if bool_decide (af ∉ _SUPPORTED_AF self) then
    throw UnsupportedAF [PAtom af; PStr (term_name t); platform_val (_PLATFORM self)]
  else
    (match _FILTER_BLACKLIST self !! af with
     | Some blacklist =>
         let unsupported_protocols := blacklist ∩ protocols in
         if bool_decide (unsupported_protocols ≠ ∅) then
           throw UnsupportedFilter
             [platform_val (_PLATFORM self); PStrs (elements unsupported_protocols);
              PAtom af; PStr (term_name t)]
         else mret tt
     | None => mret tt
     end);;
    scan_options term t protocols all_protocols_stateful (term_option t).

(** *** FixTermLength *)

(** The abbreviation loop: [inl] is the early [return new_term], [inr] the
    value of [new_term] when the table is exhausted. *)
Fixpoint abbreviate_loop (max : nat) (table : list (string * string)) (new_term : string)
  : string + string :=
  match table with
  | [] => inr new_term
  | (word, abbrev) :: rest =>
      if (String.length new_term <=? max)%nat then inl new_term
      else abbreviate_loop max rest (re_sub word abbrev new_term)
  end.

Definition FixTermLength (self : Generator) (term_name : string)
    (abbreviate truncate : bool) : result string :=
  let max := _TERM_MAX_LENGTH self in
  match (if abbreviate then abbreviate_loop max (_ABBREVIATION_TABLE self) term_name
         else inr term_name) with
  | inl new_term => Ok new_term
  | inr new_term =>
      let new_term := if truncate then str_take max new_term else new_term in
      if (String.length new_term <=? max)%nat then Ok new_term
      else raise TermNameTooLongError
             [PStr new_term; PStr term_name; PInt (Z.of_nat max);
              PInt (Z.of_nat (String.length new_term))]
  end.

(** *** The base class *)

Definition base : Generator := {|
  _PLATFORM := None;
  _DEFAULT_PROTOCOL := "ip";
  _SUPPORTED_AF := {[AStr "inet"; AStr "inet6"]};
  _FILTER_BLACKLIST := ∅;
  _REQUIRED_KEYWORDS :=
    list_to_set
      ["action"; "comment"; "destination_address"; "destination_address_exclude";
       "destination_port"; "icmp_type"; "name"; "option"; "protocol"; "platform";
       "platform_exclude"; "source_address"; "source_address_exclude";
       "source_port"; "translated"; "verbatim"];
  _OPTIONAL_SUPPORTED_KEYWORDS := ∅;
  _ABBREVIATION_TABLE :=
    [("bogons", "BGN"); ("bogon", "BGN"); ("reserved", "RSV"); ("rfc1918", "PRV");
     ("rfc-1918", "PRV"); ("internet", "EXT"); ("global", "GBL");
     ("internal", "INT"); ("customer", "CUST"); ("google", "GOOG");
     ("ballmer", "ASS"); ("microsoft", "LOL"); ("china", "BAN"); ("border", "BDR");
     ("service", "SVC"); ("router", "RTR"); ("transit", "TRNS");
     ("experiment", "EXP"); ("established", "EST"); ("unreachable", "UNR");
     ("fragment", "FRG"); ("accept", "OK"); ("discard", "DSC"); ("reject", "REJ");
     ("replies", "ACK"); ("request", "REQ")];
  _TERM_MAX_LENGTH := 62;
  _TranslatePolicy := λ _ _,
    throw Error_ [PNone; PStr "does not implement _TranslatePolicies()"]
|}.

(** A subclass that overrides [_PLATFORM] only. *)
Definition with_PLATFORM (self : Generator) (p : string) : Generator :=
  MkGenerator (Some p) (_DEFAULT_PROTOCOL self) (_SUPPORTED_AF self)
              (_FILTER_BLACKLIST self) (_REQUIRED_KEYWORDS self)
              (_OPTIONAL_SUPPORTED_KEYWORDS self) (_ABBREVIATION_TABLE self)
              (_TERM_MAX_LENGTH self) (_TranslatePolicy self).

(** A subclass that overrides [_TERM_MAX_LENGTH] only. *)
Definition with_TERM_MAX_LENGTH (self : Generator) (n : nat) : Generator :=
  MkGenerator (_PLATFORM self) (_DEFAULT_PROTOCOL self) (_SUPPORTED_AF self)
              (_FILTER_BLACKLIST self) (_REQUIRED_KEYWORDS self)
              (_OPTIONAL_SUPPORTED_KEYWORDS self) (_ABBREVIATION_TABLE self) n
              (_TranslatePolicy self).

End ACLGenerator.

(** * Specification vocabulary *)

(** The mismatch test of [Term.NormalizeIcmpTypes], named. *)
Definition icmp_inet_mismatch (af : pyatom) (protocols : list string) : bool :=
  (bool_decide (af ≠ AInt 4) && bool_decide (protocols = ["icmp"]))
  || (bool_decide (af ≠ AInt 6) && bool_decide (protocols = ["icmpv6"])).

(** A table with two IPv4 types and one IPv6 type, for the examples. *)
Definition ICMP_TYPE_example : Term.IcmpTypeTable :=
  Term.MkIcmpTypeTable {["echo-reply" := 0; "unreachable" := 3]}
                       {["echo-reply" := 129]}.

(** [word] occurs in [s]. *)
Definition occurs_in (word s : string) : Prop := ∃ x y, s = x +:+ word +:+ y.

(** Replacing every occurrence of [word] by [abbrev], the occurrences being
    taken from left to right, each after the end of the previous one. *)
Inductive replaced_all (word abbrev : string) : string → string → Prop :=
  | replaced_none s :
      ¬ occurs_in word s → replaced_all word abbrev s s
  | replaced_first x y r :
      (∀ x' y', x +:+ word +:+ y = x' +:+ word +:+ y' →
                (String.length x ≤ String.length x')%nat) →
      replaced_all word abbrev y r →
      replaced_all word abbrev (x +:+ word +:+ y) (x +:+ abbrev +:+ r).

(** The name after the entries of [table] have been applied in order. *)
Fixpoint apply_abbreviations (table : list (string * string)) (s : string) : string :=
  match table with
  | [] => s
  | (word, abbrev) :: rest => apply_abbreviations rest (re_sub word abbrev s)
  end.

(** The terms [__init__] validates, in the order it visits them: those of the
    headers whose platforms include the target platform. *)
Definition validated_terms (self : ACLGenerator.Generator) (pol : Policy) : list loc :=
  '(header, ts) ← filters pol;
  if ACLGenerator.platform_in (ACLGenerator._PLATFORM self) (header_platforms header)
  then ts else [].

(** The references of the validated terms are live. *)
Definition policy_wf (self : ACLGenerator.Generator) (h : Heap) (pol : Policy) : Prop :=
  ∀ l, l ∈ validated_terms self pol →
       ∃ t ps, terms h !! l = Some t ∧ lists h !! term_destination_port t = Some ps.

(** The term at [l] passes validation: it is skipped, or none of its
    populated attributes is an unsupported keyword. *)
Definition term_clean (self : ACLGenerator.Generator) (h : Heap) (l : loc) : Prop :=
  ∃ t, terms h !! l = Some t
       ∧ (ACLGenerator.term_skipped self t = true
          ∨ ∃ items, ACLGenerator.term_items t h = (Ok items, h)
                     ∧ ACLGenerator.unsupported_keywords self items = []).

(** The term [t] at [l] is active on the platform and populates an
    unsupported keyword; [items] is its attribute dict. *)
Definition term_offending (self : ACLGenerator.Generator) (h : Heap) (l : loc)
    (t : PolicyTerm) (items : list (string * pyval)) : Prop :=
  terms h !! l = Some t
  ∧ ACLGenerator.term_skipped self t = false
  ∧ ACLGenerator.term_items t h = (Ok items, h)
  ∧ ACLGenerator.unsupported_keywords self items ≠ [].

(** The exception [__init__] raises for the term [t] whose unsupported
    keywords are [err]. *)
Definition unsupported_keywords_error (self : ACLGenerator.Generator)
    (t : PolicyTerm) (err : list string) : Exn :=
  MkExn UnsupportedFilterError
    [PStr NL; PStr (term_name t);
     PStr "unsupported optional keywords for target";
     ACLGenerator.platform_val (ACLGenerator._PLATFORM self); PStr "in policy:";
     PStr (String.concat " " err)].

(** A two-term policy for the examples: the first term is for another
    platform and populates an unknown attribute, the second is active and
    populates two unknown attributes and a private one. *)
Definition example_terms : Heap :=
  MkHeap
    {[ 0%nat := MkPolicyTerm "t-other" ["tcp"] [] 0%nat ["juniper"] []
                  [("bogus", PBool true)];
       1%nat := MkPolicyTerm "t-bad" ["tcp"] ["established"] 1%nat [] []
                  [("foo", PInt 1); ("flatten_x", PInt 1); ("bar", PStr "x")] ]}
    {[ 0%nat := [(80, 80)]; 1%nat := [(1023, 1030)] ]}.

Definition example_policy : Policy :=
  MkPolicy [(MkHeader ["cisco"; "juniper"], [0%nat; 1%nat])].

(** A port [x] lies in the closed interval [p]. *)
Definition in_range (p : PortRange) (x : Z) : Prop := p.1 ≤ x ≤ p.2.

(** The set of ports a list of intervals stands for. *)
Definition covers (l : list PortRange) (x : Z) : Prop := ∃ p, p ∈ l ∧ in_range p x.

(** Every pair of the list is an interval: its lower bound is not above its
    upper bound. *)
Definition intervals (l : list PortRange) : Prop := Forall (λ p, p.1 ≤ p.2) l.

(** Consecutive intervals are in ascending order of lower bound. *)
Definition low_le (p q : PortRange) : Prop := p.1 ≤ q.1.

(** Consecutive intervals are disjoint and not adjacent: at least one port
    lies between them. *)
Definition gap (p q : PortRange) : Prop := p.2 + 1 < q.1.

(** The option list contains an entry equal to or prefixed by established. *)
Definition has_established (opts : list string) : Prop :=
  ∃ opt, opt ∈ opts ∧ ACLGenerator.is_established opt = true.

(** The two checks [FixHighPorts] makes before it looks at the options: the
    address family is supported, and no protocol of the term is blacklisted
    for it. *)
Definition passes_guards (self : ACLGenerator.Generator) (t : PolicyTerm)
    (af : pyatom) : Prop :=
  af ∈ ACLGenerator._SUPPORTED_AF self
  ∧ ∀ blacklist, ACLGenerator._FILTER_BLACKLIST self !! af = Some blacklist →
                 blacklist ∩ ACLGenerator.effective_protocols self t = ∅.

(** The statements of the TCP/UDP branch of [FixHighPorts], as one
    computation. *)
Definition add_high_ports (term : loc) : M loc :=
  mod' ← deepcopy term;
  destination_port_append mod' (1024, 65535);;
  m ← get_term mod';
  ps ← get_list (term_destination_port m);
  l ← new_list (Collapse.CollapsePortList ps);
  destination_port_assign mod' l;;
  mret mod'.

(** A term with the established option on a protocol that is neither TCP
    nor UDP. *)
Definition example_icmp_term : Heap :=
  MkHeap {[ 0%nat := MkPolicyTerm "t-icmp" ["icmp"] ["established"] 0%nat [] [] [] ]}
         {[ 0%nat := [] ]}.

(** A generator for one platform that, as several platforms do, rejects the
    protocol icmp under the address family inet6. *)
Definition example_blacklist_generator : ACLGenerator.Generator :=
  ACLGenerator.MkGenerator (Some "cisco")
    (ACLGenerator._DEFAULT_PROTOCOL ACLGenerator.base)
    (ACLGenerator._SUPPORTED_AF ACLGenerator.base)
    {[AStr "inet6" := {["icmp"]}]}
    (ACLGenerator._REQUIRED_KEYWORDS ACLGenerator.base)
    (ACLGenerator._OPTIONAL_SUPPORTED_KEYWORDS ACLGenerator.base)
    (ACLGenerator._ABBREVIATION_TABLE ACLGenerator.base)
    (ACLGenerator._TERM_MAX_LENGTH ACLGenerator.base)
    (ACLGenerator._TranslatePolicy ACLGenerator.base).

(** * Properties *)


(** ** Address families *)

Section TermFacts.
Import Term.

Variable ICMP_TYPE : IcmpTypeTable.
Variable self_term_name : string.

Lemma dom_AF_MAP_BY_NUMBER : dom AF_MAP_BY_NUMBER = {[4; 6]}.
Proof. vm_compute. reflexivity. Qed.

Lemma dom_AF_MAP : dom AF_MAP = {["inet"; "inet6"; "bridge"]}.
Proof. vm_compute. reflexivity. Qed.

Lemma in_AF_MAP_BY_NUMBER_spec af :
  in_AF_MAP_BY_NUMBER af = true ↔ af = AInt 4 ∨ af = AInt 6.
Proof.
  destruct af as [n|s]; simpl.
  - rewrite bool_decide_eq_true, <- elem_of_dom, dom_AF_MAP_BY_NUMBER.
    rewrite elem_of_union, !elem_of_singleton. naive_solver.
  - naive_solver.
Qed.

Lemma AF_MAP_lookup_None af :
  AF_MAP_lookup af = None ↔
  af ≠ AStr "inet" ∧ af ≠ AStr "inet6" ∧ af ≠ AStr "bridge".
Proof.
  destruct af as [n|s]; simpl; [naive_solver|].
  rewrite <- not_elem_of_dom, dom_AF_MAP.
  rewrite !not_elem_of_union, !not_elem_of_singleton. naive_solver.
Qed.

(** C7. [NormalizeAddressFamily] returns a numeric address family (4 or 6)
    as it is, maps the names inet, inet6 and bridge to 4, 6 and 4, and raises
    [UnsupportedAF] on every other value. *)
Theorem NormalizeAddressFamily_spec (af : pyatom) :
  (af = AInt 4 ∨ af = AInt 6 →
     NormalizeAddressFamily self_term_name af = Ok af)
  ∧ (af = AStr "inet" → NormalizeAddressFamily self_term_name af = Ok (AInt 4))
  ∧ (af = AStr "inet6" → NormalizeAddressFamily self_term_name af = Ok (AInt 6))
  ∧ (af = AStr "bridge" → NormalizeAddressFamily self_term_name af = Ok (AInt 4))
  ∧ (af ∉ [AInt 4; AInt 6; AStr "inet"; AStr "inet6"; AStr "bridge"] →
     NormalizeAddressFamily self_term_name af
     = raise UnsupportedAF [PAtom af; PStr self_term_name]).
Proof.
  repeat split.
  - intros H. unfold NormalizeAddressFamily.
    by rewrite (proj2 (in_AF_MAP_BY_NUMBER_spec af) H).
  - by intros ->.
  - by intros ->.
  - by intros ->.
  - intros H. unfold NormalizeAddressFamily.
    destruct (in_AF_MAP_BY_NUMBER af) eqn:E.
    + apply in_AF_MAP_BY_NUMBER_spec in E. set_solver.
    + assert (AF_MAP_lookup af = None) as ->; [|done].
      apply AF_MAP_lookup_None. set_solver.
Qed.

(** The normalised family is always 4 or 6. *)
Lemma NormalizeAddressFamily_Ok af n :
  NormalizeAddressFamily self_term_name af = Ok n → n = AInt 4 ∨ n = AInt 6.
Proof.
  unfold NormalizeAddressFamily.
  destruct (in_AF_MAP_BY_NUMBER af) eqn:E.
  - intros [= <-]. by apply in_AF_MAP_BY_NUMBER_spec.
  - destruct af as [k|s]; simpl; [done|].
    destruct (AF_MAP !! s) as [m|] eqn:Em; [|done].
    intros [= <-].
    assert (m ∈ ({[4; 6]} : gset Z)) as Hm.
    { rewrite <- dom_AF_MAP_BY_NUMBER. apply elem_of_dom.
      unfold AF_MAP_BY_NUMBER.
      destruct (list_to_map (M := gmap Z string)
                  ((λ kv : string * Z, (kv.2, kv.1)) <$> map_to_list AF_MAP) !! m)
        eqn:El; [eauto|].
      apply not_elem_of_list_to_map in El. exfalso. apply El.
      rewrite <- list_fmap_compose. apply list_elem_of_fmap.
      exists (s, m). split; [done|]. by apply elem_of_map_to_list. }
    set_solver.
Qed.

(** ** ICMP types *)

(** C8. With no ICMP type the result is the one-element list holding the
    empty string, whatever the protocols and the address family are: nothing
    is validated before the empty list is recognised. *)
Theorem NormalizeIcmpTypes_empty (protocols : list string) (af : pyatom) :
  NormalizeIcmpTypes ICMP_TYPE self_term_name [] protocols af = Ok [AStr ""].
Proof. reflexivity. Qed.

Lemma check_icmp_types_Ok tbl icmp_types :
  check_icmp_types self_term_name tbl icmp_types = Ok tt
  ↔ ∀ x, x ∈ icmp_types → is_Some (tbl !! x).
Proof.
  induction icmp_types as [|x l IH]; simpl.
  - split; [|done]. intros _ x Hx. by apply elem_of_nil in Hx.
  - destruct (tbl !! x) as [c|] eqn:E.
    + rewrite IH. split.
      * intros H y [->|Hy]%elem_of_cons; eauto.
      * intros H y Hy. apply H. by right.
    + split; [done|]. intros H. destruct (H x) as [? ?]; [by left|congruence].
Qed.

Lemma check_icmp_types_cases tbl icmp_types :
  check_icmp_types self_term_name tbl icmp_types = Ok tt
  ∨ (raises (check_icmp_types self_term_name tbl icmp_types) UnknownIcmpTypeError
     ∧ ∃ y, y ∈ icmp_types ∧ tbl !! y = None).
Proof.
  induction icmp_types as [|x l IH]; simpl; [by left|].
  destruct (tbl !! x) eqn:E.
  - destruct IH as [IH|(Hr & y & Hy & Hn)]; [by left|right].
    split; [done|]. exists y. split; [by right|done].
  - right. split; [by eexists|]. exists x. split; [by left|done].
Qed.

Lemma icmp_codes_Ok tbl icmp_types :
  (∀ x, x ∈ icmp_types → is_Some (tbl !! x)) →
  ∃ codes, icmp_codes tbl icmp_types = Ok codes
           ∧ Forall2 (λ x c, tbl !! x = Some c) icmp_types codes.
Proof.
  induction icmp_types as [|x l IH]; intros H; simpl.
  - exists []. by split.
  - destruct (H x) as [c Hc]; [by left|]. rewrite Hc.
    destruct IH as (cs & -> & Hcs); [intros y Hy; apply H; by right|].
    exists (c :: cs). split; [done|]. by constructor.
Qed.

Lemma raise_inv {A : Type} (c c' : ErrorClass) (args args' : list pyval) :
  raise (A := A) c args = raise c' args' → c = c' ∧ args = args'.
Proof. by intros [= -> ->]. Qed.

Lemma icmp_inet_mismatch_spec af protocols :
  icmp_inet_mismatch af protocols = true
  ↔ (protocols = ["icmp"] ∧ af ≠ AInt 4) ∨ (protocols = ["icmpv6"] ∧ af ≠ AInt 6).
Proof.
  unfold icmp_inet_mismatch.
  rewrite orb_true_iff, !andb_true_iff, !bool_decide_eq_true. tauto.
Qed.

(** What is left of the method once the protocols have passed the first
    check. *)
Lemma NormalizeIcmpTypes_icmp x l protocols af :
  protocols = ["icmp"] ∨ protocols = ["icmpv6"] →
  NormalizeIcmpTypes ICMP_TYPE self_term_name (x :: l) protocols af
  = (n ← NormalizeAddressFamily self_term_name af;
     if icmp_inet_mismatch n protocols
     then raise MismatchIcmpInetError
            [PStr "ICMP/ICMPv6 mismatch with address family IPv4/IPv6 in term";
             PStr self_term_name]
     else
       tbl ← ICMP_TYPE_getitem ICMP_TYPE n;
       check_icmp_types self_term_name tbl (x :: l);;
       rval ← icmp_codes tbl (x :: l);
       Ok (AInt <$> merge_sort Z.le rval)).
Proof.
  intros Hp. unfold NormalizeIcmpTypes.
  assert (bool_decide (protocols ≠ ["icmp"]) && bool_decide (protocols ≠ ["icmpv6"])
          = false) as ->; [|done].
  apply andb_false_iff. rewrite !bool_decide_eq_false. destruct Hp; [left|right]; tauto.
Qed.

Lemma NormalizeIcmpTypes_non_icmp x l protocols af :
  protocols ≠ ["icmp"] → protocols ≠ ["icmpv6"] →
  NormalizeIcmpTypes ICMP_TYPE self_term_name (x :: l) protocols af
  = raise UnsupportedFilterError
      [PStr "icmp-types specified for non-icmp protocols in term: ";
       PStr self_term_name].
Proof.
  intros H4 H6. unfold NormalizeIcmpTypes.
  by rewrite (bool_decide_eq_true_2 _ H4), (bool_decide_eq_true_2 _ H6).
Qed.

(** On the families 4 and 6 the table lookup cannot fail. *)
Lemma ICMP_TYPE_getitem_Ok n :
  n = AInt 4 ∨ n = AInt 6 → ∃ tbl, ICMP_TYPE_getitem ICMP_TYPE n = Ok tbl.
Proof. intros [-> | ->]; eauto. Qed.

Lemma NormalizeAddressFamily_Raise af e :
  NormalizeAddressFamily self_term_name af = Raise e → exn_class e = UnsupportedAF.
Proof.
  unfold NormalizeAddressFamily.
  destruct (in_AF_MAP_BY_NUMBER af); [done|].
  destruct (AF_MAP_lookup af); [done|]. by intros [= <-].
Qed.

(** The outcomes of the method once the protocols have passed the first
    check, in the order the code reaches them. *)
Lemma NormalizeIcmpTypes_icmp_cases x l protocols af :
  protocols = ["icmp"] ∨ protocols = ["icmpv6"] →
  let r := NormalizeIcmpTypes ICMP_TYPE self_term_name (x :: l) protocols af in
  (∃ e, NormalizeAddressFamily self_term_name af = Raise e ∧ r = Raise e)
  ∨ (∃ n, NormalizeAddressFamily self_term_name af = Ok n
          ∧ icmp_inet_mismatch n protocols = true
          ∧ raises r MismatchIcmpInetError)
  ∨ (∃ n tbl, NormalizeAddressFamily self_term_name af = Ok n
          ∧ icmp_inet_mismatch n protocols = false
          ∧ ICMP_TYPE_getitem ICMP_TYPE n = Ok tbl
          ∧ ((raises r UnknownIcmpTypeError
              ∧ ∃ y, y ∈ x :: l ∧ tbl !! y = None)
             ∨ (∃ codes, Forall2 (λ y c, tbl !! y = Some c) (x :: l) codes
                         ∧ r = Ok (AInt <$> merge_sort Z.le codes)))).
Proof.
  intros Hp r. subst r. rewrite NormalizeIcmpTypes_icmp by done.
  destruct (NormalizeAddressFamily self_term_name af) as [n|e] eqn:En;
    [|left; by exists e].
  right. cbn [mbind result_bind].
  destruct (icmp_inet_mismatch n protocols) eqn:Em.
  { left. exists n. repeat split; try done. by eexists. }
  right.
  assert (n = AInt 4 ∨ n = AInt 6) as Hn by by eapply NormalizeAddressFamily_Ok.
  destruct (ICMP_TYPE_getitem_Ok n Hn) as [tbl Ht].
  exists n, tbl. repeat split; try done. rewrite Ht. cbn [mbind result_bind].
  destruct (check_icmp_types_cases tbl (x :: l)) as [Hc|[[args Hc] Hy]].
  - right. rewrite Hc. cbn [mbind result_bind].
    pose proof (proj1 (check_icmp_types_Ok _ _) Hc) as Hall.
    destruct (icmp_codes_Ok tbl (x :: l) Hall) as (codes & Hcodes & HF).
    exists codes. by rewrite Hcodes.
  - left. rewrite Hc. split; [by eexists|done].
Qed.

Lemma raises_inj {A : Type} (r : result A) (c c' : ErrorClass) :
  raises r c → raises r c' → c = c'.
Proof. intros [a ->] [a' H]. by apply raise_inv in H as [? ?]. Qed.

Lemma raises_not_Ok {A : Type} (r : result A) (c : ErrorClass) (a : A) :
  raises r c → r ≠ Ok a.
Proof. by intros [args ->]. Qed.

Lemma Forall2_codes_unique (tbl : gmap string Z) (names : list string)
    (codes codes' : list Z) :
  Forall2 (λ x c, tbl !! x = Some c) names codes →
  Forall2 (λ x c, tbl !! x = Some c) names codes' →
  codes = codes'.
Proof.
  intros H. revert codes'. induction H as [|x c names codes Hx _ IH]; intros codes' H'.
  - by apply Forall2_nil_inv_l in H'.
  - apply Forall2_cons_inv_l in H' as (c' & codes'' & Hx' & H' & ->).
    f_equal; [congruence|by apply IH].
Qed.

(** C3. With at least one ICMP type, the checks are made in this order:
    the protocols must be exactly [icmp] or exactly [icmpv6], else
    [UnsupportedFilterError]; the normalised address family must be 4 for
    icmp and 6 for icmpv6, else [MismatchIcmpInetError]; every name must be
    in the table of that family, else [UnknownIcmpTypeError]; and when all
    three checks pass the call returns the codes of the names sorted in
    ascending order.  Each exception is raised in these cases only, and a
    call returns in this case only. *)
Theorem NormalizeIcmpTypes_spec (icmp_types protocols : list string) (af : pyatom) :
  icmp_types ≠ [] →
  let r := NormalizeIcmpTypes ICMP_TYPE self_term_name icmp_types protocols af in
  (raises r UnsupportedFilterError ↔ protocols ≠ ["icmp"] ∧ protocols ≠ ["icmpv6"])
  ∧ (raises r MismatchIcmpInetError
     ↔ ∃ n, NormalizeAddressFamily self_term_name af = Ok n
            ∧ ((protocols = ["icmp"] ∧ n ≠ AInt 4)
               ∨ (protocols = ["icmpv6"] ∧ n ≠ AInt 6)))
  ∧ (raises r UnknownIcmpTypeError
     ↔ ∃ n tbl, NormalizeAddressFamily self_term_name af = Ok n
                ∧ ((protocols = ["icmp"] ∧ n = AInt 4)
                   ∨ (protocols = ["icmpv6"] ∧ n = AInt 6))
                ∧ ICMP_TYPE_getitem ICMP_TYPE n = Ok tbl
                ∧ ∃ x, x ∈ icmp_types ∧ tbl !! x = None)
  ∧ (∀ n tbl codes,
       NormalizeAddressFamily self_term_name af = Ok n →
       (protocols = ["icmp"] ∧ n = AInt 4) ∨ (protocols = ["icmpv6"] ∧ n = AInt 6) →
       ICMP_TYPE_getitem ICMP_TYPE n = Ok tbl →
       Forall2 (λ x c, tbl !! x = Some c) icmp_types codes →
       ∃ sorted, sorted ≡ₚ codes ∧ Sorted Z.le sorted ∧ r = Ok (AInt <$> sorted))
  ∧ (∀ rval, r = Ok rval →
       ∃ n tbl codes sorted,
         NormalizeAddressFamily self_term_name af = Ok n
         ∧ ((protocols = ["icmp"] ∧ n = AInt 4)
            ∨ (protocols = ["icmpv6"] ∧ n = AInt 6))
         ∧ ICMP_TYPE_getitem ICMP_TYPE n = Ok tbl
         ∧ Forall2 (λ x c, tbl !! x = Some c) icmp_types codes
         ∧ sorted ≡ₚ codes ∧ Sorted Z.le sorted
         ∧ rval = AInt <$> sorted).
Proof.
  intros Hne r. destruct icmp_types as [|x l]; [done|]. clear Hne.
  pose proof (NormalizeIcmpTypes_icmp_cases x l protocols af) as Hcases.
  fold r in Hcases. cbv zeta in Hcases.
  (* the outcome when the protocols are neither list *)
  assert (¬ (protocols = ["icmp"] ∨ protocols = ["icmpv6"]) →
          raises r UnsupportedFilterError) as Hnon.
  { intros Hp. subst r. rewrite NormalizeIcmpTypes_non_icmp; [by eexists|tauto|tauto]. }
  (* a normalised family that passes the mismatch test is the matching one *)
  assert (∀ n, NormalizeAddressFamily self_term_name af = Ok n →
               protocols = ["icmp"] ∨ protocols = ["icmpv6"] →
               icmp_inet_mismatch n protocols = false →
               (protocols = ["icmp"] ∧ n = AInt 4)
               ∨ (protocols = ["icmpv6"] ∧ n = AInt 6)) as Hmatch.
  { intros n Hn Hp Hm. apply NormalizeAddressFamily_Ok in Hn.
    destruct Hn as [-> | ->], Hp as [-> | ->]; auto;
      exfalso; vm_compute in Hm; discriminate Hm. }
  split; [|split; [|split; [|split]]].
  - (* UnsupportedFilterError *)
    split; [|intros [H4 H6]; apply Hnon; tauto].
    intros H. assert (¬ (protocols = ["icmp"] ∨ protocols = ["icmpv6"])); [|tauto].
    intros Hp. destruct (Hcases Hp) as [(e & He & Hr)|[(n & _ & _ & Hr)|
      (n & tbl & _ & _ & _ & [[Hr _]|(codes & _ & Hr)])]].
    + destruct H as [args Ha]. rewrite Ha in Hr. injection Hr as <-.
      by apply NormalizeAddressFamily_Raise in He.
    + by pose proof (raises_inj _ _ _ H Hr).
    + by pose proof (raises_inj _ _ _ H Hr).
    + by apply (raises_not_Ok _ _ _ H) in Hr.
  - (* MismatchIcmpInetError *)
    split.
    + intros H.
      destruct (decide (protocols = ["icmp"] ∨ protocols = ["icmpv6"])) as [Hp|Hp].
      2:{ by pose proof (raises_inj _ _ _ H (Hnon Hp)). }
      destruct (Hcases Hp) as [(e & He & Hr)|[(n & Hn & Hm & _)|
        (n & tbl & _ & _ & _ & [[Hr _]|(codes & _ & Hr)])]].
      * destruct H as [args Ha]. rewrite Ha in Hr. injection Hr as <-.
        by apply NormalizeAddressFamily_Raise in He.
      * exists n. split; [done|]. by apply icmp_inet_mismatch_spec.
      * by pose proof (raises_inj _ _ _ H Hr).
      * by apply (raises_not_Ok _ _ _ H) in Hr.
    + intros (n & Hn & Hm).
      assert (protocols = ["icmp"] ∨ protocols = ["icmpv6"]) as Hp by tauto.
      apply icmp_inet_mismatch_spec in Hm.
      destruct (Hcases Hp) as [(e & He & _)|[(n' & Hn' & _ & Hr)|
        (n' & tbl & Hn' & Hm' & _)]]; [congruence|done|congruence].
  - (* UnknownIcmpTypeError *)
    split.
    + intros H.
      destruct (decide (protocols = ["icmp"] ∨ protocols = ["icmpv6"])) as [Hp|Hp].
      2:{ by pose proof (raises_inj _ _ _ H (Hnon Hp)). }
      destruct (Hcases Hp) as [(e & He & Hr)|[(n & Hn & Hm & Hr)|
        (n & tbl & Hn & Hm & Ht & [[_ Hx]|(codes & _ & Hr)])]].
      * destruct H as [args Ha]. rewrite Ha in Hr. injection Hr as <-.
        by apply NormalizeAddressFamily_Raise in He.
      * by pose proof (raises_inj _ _ _ H Hr).
      * exists n, tbl. split; [done|]. split; [by apply Hmatch|]. by split.
      * by apply (raises_not_Ok _ _ _ H) in Hr.
    + intros (n & tbl & Hn & Hm & Ht & y & Hy & Hnone).
      assert (protocols = ["icmp"] ∨ protocols = ["icmpv6"]) as Hp by tauto.
      destruct (Hcases Hp) as [(e & He & _)|[(n' & Hn' & Hm' & Hr)|
        (n' & tbl' & Hn' & _ & Ht' & [[Hr _]|(codes & HF & _)])]]; [congruence|..|done|].
      * exfalso. assert (n' = n) as -> by congruence.
        apply icmp_inet_mismatch_spec in Hm'. naive_solver.
      * exfalso. assert (n' = n) as -> by congruence.
        assert (tbl' = tbl) as -> by congruence.
        apply list_elem_of_lookup in Hy as [i Hi].
        destruct (Forall2_lookup_l _ _ _ _ _ HF Hi) as (c & _ & Hc). congruence.
  - (* the call returns when the three checks pass *)
    intros n tbl codes Hn Hm Ht HF.
    assert (protocols = ["icmp"] ∨ protocols = ["icmpv6"]) as Hp by tauto.
    exists (merge_sort Z.le codes).
    split; [apply merge_sort_Permutation|]. split; [apply (Sorted_merge_sort Z.le)|].
    destruct (Hcases Hp) as [(e & He & _)|[(n' & Hn' & Hm' & _)|
      (n' & tbl' & Hn' & _ & Ht' & [(_ & y & Hy & Hnone)|(codes' & HF' & Hr)])]].
    + congruence.
    + exfalso. assert (n' = n) as -> by congruence.
      apply icmp_inet_mismatch_spec in Hm'. naive_solver.
    + exfalso. assert (n' = n) as -> by congruence.
      assert (tbl' = tbl) as -> by congruence.
      apply list_elem_of_lookup in Hy as [i Hi].
      destruct (Forall2_lookup_l _ _ _ _ _ HF Hi) as (c & _ & Hc). congruence.
    + assert (n' = n) as -> by congruence.
      assert (tbl' = tbl) as -> by congruence.
      by rewrite (Forall2_codes_unique tbl (x :: l) codes codes' HF HF').
  - (* a call that returns has passed the three checks *)
    intros rval Hr.
    destruct (decide (protocols = ["icmp"] ∨ protocols = ["icmpv6"])) as [Hp|Hp].
    2:{ by destruct (raises_not_Ok _ _ rval (Hnon Hp)). }
    destruct (Hcases Hp) as [(e & He & Hr')|[(n' & Hn' & Hm' & Hr')|
      (n' & tbl' & Hn' & Hm' & Ht' & [[Hr' _]|(codes & HF & Hr')])]].
    + congruence.
    + by apply (raises_not_Ok _ _ rval) in Hr'.
    + by apply (raises_not_Ok _ _ rval) in Hr'.
    + exists n', tbl', codes, (merge_sort Z.le codes).
      split; [done|]. split; [by apply Hmatch|]. split; [done|]. split; [done|].
      split; [apply merge_sort_Permutation|]. split; [apply (Sorted_merge_sort Z.le)|].
      congruence.
Qed.

End TermFacts.

Lemma NormalizeAddressFamily_spec_witness :
  Term.NormalizeAddressFamily "t" (AStr "bogus")
  = raise UnsupportedAF [PAtom (AStr "bogus"); PStr "t"].
Proof.
  apply (NormalizeAddressFamily_spec "t" (AStr "bogus")).
  rewrite !elem_of_cons, elem_of_nil. by intros [|[|[|[|[|]]]]].
Defined.

Lemma NormalizeIcmpTypes_spec_witness :
  raises (Term.NormalizeIcmpTypes ICMP_TYPE_example "t"
            ["unreachable"] ["tcp"] (AStr "inet")) UnsupportedFilterError
  ∧ raises (Term.NormalizeIcmpTypes ICMP_TYPE_example "t"
              ["unreachable"] ["icmp"] (AStr "inet6")) MismatchIcmpInetError
  ∧ raises (Term.NormalizeIcmpTypes ICMP_TYPE_example "t"
              ["unreachable"; "bogus"] ["icmp"] (AStr "inet")) UnknownIcmpTypeError
  ∧ ∃ sorted, sorted ≡ₚ [3; 0] ∧ Sorted Z.le sorted
              ∧ Term.NormalizeIcmpTypes ICMP_TYPE_example "t"
                  ["unreachable"; "echo-reply"] ["icmp"] (AStr "inet")
                = Ok (AInt <$> sorted).
Proof.
  split; [|split; [|split]].
  - by apply (NormalizeIcmpTypes_spec ICMP_TYPE_example "t"
                ["unreachable"] ["tcp"] (AStr "inet")).
  - pose proof (NormalizeIcmpTypes_spec ICMP_TYPE_example "t"
                  ["unreachable"] ["icmp"] (AStr "inet6") ltac:(done)) as H.
    cbv zeta in H. destruct H as (_ & H & _).
    apply H. exists (AInt 6). split; [reflexivity|]. by left.
  - pose proof (NormalizeIcmpTypes_spec ICMP_TYPE_example "t"
                  ["unreachable"; "bogus"] ["icmp"] (AStr "inet") ltac:(done)) as H.
    cbv zeta in H. destruct H as (_ & _ & H & _).
    apply H. exists (AInt 4), (Term.icmp_types_inet ICMP_TYPE_example).
    split; [reflexivity|]. split; [by left|]. split; [reflexivity|].
    exists "bogus". split; [by right; left|reflexivity].
  - pose proof (NormalizeIcmpTypes_spec ICMP_TYPE_example "t"
                  ["unreachable"; "echo-reply"] ["icmp"] (AStr "inet") ltac:(done))
      as H.
    cbv zeta in H. destruct H as (_ & _ & _ & H & _).
    apply (H (AInt 4) (Term.icmp_types_inet ICMP_TYPE_example) [3; 0]);
      [reflexivity|by left|reflexivity|].
    repeat constructor.
Defined.

(** ** Term names *)

Section StringFacts.

Lemma append_nil_r s : s +:+ "" = s.
Proof. induction s as [|c s IH]; simpl; [done|]. unfold String.app in *. simpl. by rewrite IH. Qed.

Lemma append_assoc s1 s2 s3 : (s1 +:+ s2) +:+ s3 = s1 +:+ (s2 +:+ s3).
Proof. induction s1 as [|c s IH]; [done|]. unfold String.app in *. simpl. by rewrite IH. Qed.

Lemma append_cons c s1 s2 : String c s1 +:+ s2 = String c (s1 +:+ s2).
Proof. done. Qed.

Lemma length_append s1 s2 :
  String.length (s1 +:+ s2) = (String.length s1 + String.length s2)%nat.
Proof. induction s1 as [|c s IH]; [done|]. rewrite append_cons. simpl. by rewrite IH. Qed.

Lemma prefix_append w s : String.prefix w s = true ↔ ∃ y, s = w +:+ y.
Proof.
  revert s. induction w as [|c w IH]; intros s.
  - split; [|by destruct s]. intros _. by exists s.
  - destruct s as [|d s]; simpl.
    + split; [done|]. by intros [y Hy].
    + destruct (Ascii.ascii_dec c d) as [->|Hne].
      * rewrite IH. split; intros [y Hy]; exists y.
        -- by rewrite append_cons, Hy.
        -- rewrite append_cons in Hy. by injection Hy.
      * split; [done|]. intros [y Hy]. rewrite append_cons in Hy. by injection Hy.
Qed.

Lemma str_take_length n s :
  String.length (str_take n s) = Nat.min n (String.length s).
Proof.
  revert s. induction n as [|n IH]; intros [|c s]; simpl; try done. by rewrite IH.
Qed.

Lemma str_take_all n s : (String.length s ≤ n)%nat → str_take n s = s.
Proof.
  revert s. induction n as [|n IH]; intros [|c s]; simpl; try done; [lia|].
  intros H. rewrite IH; [done|lia].
Qed.

Lemma str_take_prefix n s : ∃ y, s = str_take n s +:+ y.
Proof.
  revert s. induction n as [|n IH]; intros [|c s]; simpl; eauto.
  destruct (IH s) as [y Hy]. exists y. by rewrite append_cons, <- Hy.
Qed.

Lemma re_sub_from_skip word abbrev x y :
  re_sub_from word abbrev (String.length x) (x +:+ y) = re_sub_from word abbrev 0 y.
Proof. induction x as [|c x IH]; [done|]. by rewrite append_cons. Qed.

End StringFacts.

Section ReSub.

Variables word abbrev : string.
Hypothesis word_nonempty : word ≠ "".

Lemma occurs_in_cons c s :
  occurs_in word (String c s) ↔ String.prefix word (String c s) = true ∨ occurs_in word s.
Proof.
  split.
  - intros ([|d x] & y & H).
    + left. apply prefix_append. by exists y.
    + right. rewrite append_cons in H. injection H as _ ->. by exists x, y.
  - intros [H|(x & y & ->)].
    + apply prefix_append in H as [y Hy]. by exists "", y.
    + by exists (String c x), y.
Qed.

Lemma not_occurs_in_empty : ¬ occurs_in word "".
Proof.
  intros ([|d x] & y & H); [|done].
  destruct word; [done|]. by rewrite append_cons in H.
Qed.

Lemma replaced_all_cons c s r :
  String.prefix word (String c s) = false →
  replaced_all word abbrev s r →
  replaced_all word abbrev (String c s) (String c r).
Proof.
  intros Hp Hr. inversion Hr as [s0 Hno|x y r0 Hmin Hy]; subst.
  - apply replaced_none. rewrite occurs_in_cons. intros [H|H]; [congruence|done].
  - rewrite <- !append_cons. apply replaced_first; [|done].
    intros [|d x'] y' H.
    + exfalso. rewrite append_cons in H.
      assert (String.prefix word (String c (x +:+ word +:+ y)) = true); [|congruence].
      apply prefix_append. by exists y'.
    + rewrite !append_cons in H. injection H as _ H. simpl.
      apply Hmin in H. lia.
Qed.

Lemma re_sub_from_replaced_all (n : nat) (s : string) :
  (String.length s ≤ n)%nat →
  replaced_all word abbrev s (re_sub_from word abbrev 0 s).
Proof.
  revert s. induction n as [|n IH]; intros s Hn.
  - destruct s; [|simpl in Hn; lia].
    apply replaced_none, not_occurs_in_empty.
  - destruct s as [|c s].
    { apply replaced_none, not_occurs_in_empty. }
    cbn [re_sub_from].
    destruct (String.prefix word (String c s)) eqn:Hp.
    + apply prefix_append in Hp as [y Hy].
      destruct word as [|d w] eqn:Ew; [done|].
      rewrite append_cons in Hy. injection Hy as <- ->.
      cbn [String.length]. rewrite Nat.sub_succ, Nat.sub_0_r.
      rewrite re_sub_from_skip.
      change (String c (w +:+ y)) with ("" +:+ String c w +:+ y).
      change (abbrev +:+ re_sub_from (String c w) abbrev 0 y)
        with ("" +:+ abbrev +:+ re_sub_from (String c w) abbrev 0 y).
      apply replaced_first; [intros; simpl; lia|].
      apply IH. simpl in Hn. rewrite length_append in Hn. lia.
    + apply replaced_all_cons; [done|]. apply IH. simpl in Hn. lia.
Qed.

Lemma re_sub_replaced_all (s : string) :
  replaced_all word abbrev s (re_sub word abbrev s).
Proof.
  unfold re_sub. destruct (decide (word = "")); [done|].
  by apply (re_sub_from_replaced_all (String.length s)).
Qed.

End ReSub.

Section FixTermLengthFacts.
Import ACLGenerator.

Variable self : Generator.

Let max := _TERM_MAX_LENGTH self.
Let table := _ABBREVIATION_TABLE self.

(** The name after the first [k] entries of the table. *)
Let after (k : nat) (name : string) : string :=
  apply_abbreviations (take k table) name.

(** The abbreviation loop returns at the first entry before which the name
    fits, and otherwise hands on the name with every entry applied. *)
Lemma abbreviate_loop_spec (m : nat) (tbl : list (string * string)) (s : string) :
  match abbreviate_loop m tbl s with
  | inl r =>
      ∃ k, (k < length tbl)%nat ∧ r = apply_abbreviations (take k tbl) s
           ∧ (String.length r ≤ m)%nat
           ∧ ∀ j, (j < k)%nat →
                  (m < String.length (apply_abbreviations (take j tbl) s))%nat
  | inr r =>
      r = apply_abbreviations tbl s
      ∧ ∀ j, (j < length tbl)%nat →
             (m < String.length (apply_abbreviations (take j tbl) s))%nat
  end.
Proof.
  revert s. induction tbl as [|[w a] tbl IH]; intros s; simpl.
  - split; [done|]. intros j Hj. lia.
  - destruct (String.length s <=? m)%nat eqn:E.
    + apply Nat.leb_le in E. exists 0%nat. repeat split; [lia|done|].
      intros j Hj. lia.
    + apply Nat.leb_gt in E. specialize (IH (re_sub w a s)).
      destruct (abbreviate_loop m tbl (re_sub w a s)) as [r|r].
      * destruct IH as (k & Hk & -> & Hfit & Hmin).
        exists (S k). repeat split; [lia|done|].
        intros [|j] Hj; simpl; [done|]. apply Hmin. lia.
      * destruct IH as [-> Hall]. split; [done|].
        intros [|j] Hj; simpl; [done|]. apply Hall. lia.
Qed.

Lemma FixTermLength_fits (name : string) (k : nat) (truncate : bool) :
  (k ≤ length table)%nat →
  (∀ j, (j < k)%nat → (max < String.length (after j name))%nat) →
  (String.length (after k name) ≤ max)%nat →
  FixTermLength self name true truncate = Ok (after k name).
Proof.
  intros Hk Hmin Hfit. unfold FixTermLength. fold max table.
  pose proof (abbreviate_loop_spec max table name) as Hloop.
  destruct (abbreviate_loop max table name) as [r|r].
  - destruct Hloop as (k' & Hk' & -> & Hfit' & Hmin').
    f_equal. f_equal. unfold after. 
    destruct (Nat.lt_trichotomy k k') as [Hlt|[->|Hgt]]; [|done|].
    + apply Hmin' in Hlt. unfold after in Hfit. lia.
    + apply Hmin in Hgt. unfold after in Hgt. lia.
  - destruct Hloop as [-> Hall].
    assert (k = length table) as ->.
    { destruct (decide (k < length table)%nat) as [Hlt|]; [|lia].
      apply Hall in Hlt. unfold after in Hfit. lia. }
    unfold after in *. rewrite firstn_all in *.
    assert ((if truncate then str_take max (apply_abbreviations table name)
             else apply_abbreviations table name) = apply_abbreviations table name)
      as ->.
    { destruct truncate; [|done]. by apply str_take_all. }
    by rewrite (proj2 (Nat.leb_le _ _) Hfit).
Qed.

Lemma abbreviate_loop_exhausted (name : string) :
  (∀ j, (j ≤ length table)%nat → (max < String.length (after j name))%nat) →
  abbreviate_loop max table name = inr (after (length table) name).
Proof.
  intros Hall. pose proof (abbreviate_loop_spec max table name) as Hloop.
  destruct (abbreviate_loop max table name) as [r|r].
  - destruct Hloop as (k & Hk & -> & Hfit & _).
    specialize (Hall k ltac:(lia)). unfold after in Hall. lia.
  - destruct Hloop as [-> _]. unfold after. by rewrite firstn_all.
Qed.

(** The steps after the abbreviation loop. *)
Lemma FixTermLength_tail (name new_term : string) (abbreviate truncate : bool) :
  (if abbreviate then abbreviate_loop max table name else inr name) = inr new_term →
  (max < String.length new_term)%nat →
  FixTermLength self name abbreviate truncate
  = if truncate then Ok (str_take max new_term)
    else raise TermNameTooLongError
           [PStr new_term; PStr name; PInt (Z.of_nat max);
            PInt (Z.of_nat (String.length new_term))].
Proof.
  intros Hloop Hlong. unfold FixTermLength. fold max table. rewrite Hloop.
  destruct truncate.
  - rewrite (proj2 (Nat.leb_le _ _)); [done|]. rewrite str_take_length. lia.
  - by rewrite (proj2 (Nat.leb_gt _ _) Hlong).
Qed.

Lemma FixTermLength_short (name : string) (abbreviate truncate : bool) :
  (String.length name ≤ max)%nat →
  FixTermLength self name abbreviate truncate = Ok name.
Proof.
  intros Hfit. destruct abbreviate.
  - apply (FixTermLength_fits name 0); [lia|intros; lia|done].
  - unfold FixTermLength. fold max.
    assert ((if truncate then str_take max name else name) = name) as ->.
    { destruct truncate; [|done]. by apply str_take_all. }
    by rewrite (proj2 (Nat.leb_le _ _) Hfit).
Qed.

End FixTermLengthFacts.

Lemma literal_table_entry (table : list (string * string)) (word abbrev : string) :
  literal_table table → (word, abbrev) ∈ table → word ≠ "".
Proof.
  intros Hlit Hin. unfold literal_table in Hlit.
  rewrite forallb_forall in Hlit. apply list_elem_of_In, Hlit in Hin.
  unfold literal_entry in Hin. cbn [fst snd] in Hin.
  apply andb_true_iff in Hin as [[Hne _]%andb_true_iff _].
  intros ->. done.
Qed.

(** The table of the source has literal entries only. *)
Lemma base_table_literal :
  literal_table (ACLGenerator._ABBREVIATION_TABLE ACLGenerator.base).
Proof. reflexivity. Qed.

(** C5. For a table of literal words, as the table of the source is: a name
    that fits is returned as it is under every combination of the flags.
    With [abbreviate], the entries of the table are applied in order, each
    replacing every occurrence of its word, and the name is returned as soon
    as it fits.  A name that is still too long is cut to its prefix of
    exactly the maximum length when [truncate] is set, and otherwise the call
    raises [TermNameTooLongError] with the attempted name, the original name,
    the maximum and the attempted length. *)
Theorem FixTermLength_spec (self : ACLGenerator.Generator) (name : string) :
  literal_table (ACLGenerator._ABBREVIATION_TABLE self) →
  let max := ACLGenerator._TERM_MAX_LENGTH self in
  let table := ACLGenerator._ABBREVIATION_TABLE self in
  let after := λ k, apply_abbreviations (take k table) name in
  ((String.length name ≤ max)%nat →
     ∀ abbreviate truncate,
       ACLGenerator.FixTermLength self name abbreviate truncate = Ok name)
  ∧ (∀ k truncate,
       (k ≤ length table)%nat →
       (∀ j, (j < k)%nat → (max < String.length (after j))%nat) →
       (String.length (after k) ≤ max)%nat →
       ACLGenerator.FixTermLength self name true truncate = Ok (after k))
  ∧ (∀ word abbrev s, (word, abbrev) ∈ table →
                      replaced_all word abbrev s (re_sub word abbrev s))
  ∧ ((∀ j, (j ≤ length table)%nat → (max < String.length (after j))%nat) →
       (∃ r y, ACLGenerator.FixTermLength self name true true = Ok r
               ∧ String.length r = max ∧ after (length table) = r +:+ y)
       ∧ ACLGenerator.FixTermLength self name true false
         = raise TermNameTooLongError
             [PStr (after (length table)); PStr name; PInt (Z.of_nat max);
              PInt (Z.of_nat (String.length (after (length table))))])
  ∧ ((max < String.length name)%nat →
       (∃ r y, ACLGenerator.FixTermLength self name false true = Ok r
               ∧ String.length r = max ∧ name = r +:+ y)
       ∧ ACLGenerator.FixTermLength self name false false
         = raise TermNameTooLongError
             [PStr name; PStr name; PInt (Z.of_nat max);
              PInt (Z.of_nat (String.length name))]).
Proof.
  intros Hlit max table after. repeat apply conj.
  - intros Hfit a t. by apply FixTermLength_short.
  - intros k t Hk Hmin Hfit. by apply FixTermLength_fits.
  - intros word abbrev s Hin. apply re_sub_replaced_all.
    by apply (literal_table_entry table word abbrev).
  - intros Hall.
    pose proof (abbreviate_loop_exhausted self name Hall) as Hloop.
    pose proof (Hall (length table) ltac:(lia)) as Hlong.
    split.
    + destruct (str_take_prefix max (after (length table))) as [y Hy].
      exists (str_take max (after (length table))), y. repeat split; [|..|done].
      * by rewrite (FixTermLength_tail self name _ true true Hloop Hlong).
      * rewrite str_take_length. lia.
    + by rewrite (FixTermLength_tail self name _ true false Hloop Hlong).
  - intros Hlong. split.
    + destruct (str_take_prefix max name) as [y Hy].
      exists (str_take max name), y. repeat split; [|..|done].
      * by rewrite (FixTermLength_tail self name name false true).
      * rewrite str_take_length. lia.
    + by rewrite (FixTermLength_tail self name name false false).
Qed.

(** The names of the examples of the specification: one that fits, on the
    base class, and one that needs the first fourteen entries of the table
    under a maximum of 20. *)
Lemma FixTermLength_spec_witness :
  ACLGenerator.FixTermLength ACLGenerator.base "short-name" true true
  = Ok "short-name"
  ∧ ACLGenerator.FixTermLength
      (ACLGenerator.with_TERM_MAX_LENGTH ACLGenerator.base 20)
      "global-internal-router-border" true false
    = Ok "GBL-INT-router-BDR".
Proof.
  split.
  - by apply (FixTermLength_spec ACLGenerator.base "short-name");
      vm_compute; lia.
  - pose proof (FixTermLength_spec
                  (ACLGenerator.with_TERM_MAX_LENGTH ACLGenerator.base 20)
                  "global-internal-router-border" eq_refl) as H.
    cbv zeta in H. destruct H as (_ & H & _).
    etrans; [apply (H 14%nat false)|vm_compute; reflexivity].
    + vm_compute. lia.
    + intros j Hj.
      do 14 (destruct j as [|j]; [vm_compute; lia|]). lia.
    + vm_compute. lia.
Defined.

(** With a maximum of 20 the name of the specification's example is
    returned as soon as it fits: [router] is left alone. *)
Example FixTermLength_stops_early :
  ACLGenerator.FixTermLength
    (ACLGenerator.with_TERM_MAX_LENGTH ACLGenerator.base 20)
    "global-internal-router-border" true false
  = Ok "GBL-INT-router-BDR".
Proof. vm_compute. reflexivity. Qed.

(** ** Keyword validation *)

Section KeywordValidation.
Import ACLGenerator.

Variable self : Generator.

Lemma M_bind_unfold {A B : Type} (m : M A) (k : A → M B) (h : Heap) :
  (m ≫= k) h
  = match m h with
    | (Ok a, h') => k a h'
    | (Raise e, h') => (Raise e, h')
    end.
Proof. done. Qed.

Lemma term_items_inv t h items h' :
  term_items t h = (Ok items, h') →
  h' = h ∧ ∃ ps, lists h !! term_destination_port t = Some ps.
Proof.
  unfold term_items, mbind, M_bind, get_list.
  destruct (lists h !! term_destination_port t) as [ps|]; [|done].
  intros [= <- <-]. eauto.
Qed.

Lemma term_items_live t h ps :
  lists h !! term_destination_port t = Some ps →
  ∃ items, term_items t h = (Ok items, h).
Proof.
  intros H. unfold term_items, mbind, M_bind, get_list. rewrite H. eauto.
Qed.

Lemma verify_term_clean h l : term_clean self h l → verify_term self l h = (Ok tt, h).
Proof.
  intros (t & Ht & Hc). unfold verify_term, mbind, M_bind, get_term. rewrite Ht.
  unfold term_skipped in Hc.
  destruct (nonempty (term_platform t)
            && negb (platform_in (_PLATFORM self) (term_platform t))); [done|].
  destruct (nonempty (term_platform_exclude t)
            && platform_in (_PLATFORM self) (term_platform_exclude t)); [done|].
  destruct Hc as [Hc|(items & Hi & He)]; [done|].
  by rewrite Hi, He.
Qed.

Lemma verify_term_offending h l t items :
  term_offending self h l t items →
  verify_term self l h
  = (Raise (unsupported_keywords_error self t (unsupported_keywords self items)), h).
Proof.
  intros (Ht & Hs & Hi & He). unfold verify_term, mbind, M_bind, get_term. rewrite Ht.
  unfold term_skipped in Hs. apply orb_false_iff in Hs as [-> ->].
  rewrite Hi. destruct (unsupported_keywords self items); done.
Qed.

Lemma live_clean_or_offending h l t ps :
  terms h !! l = Some t → lists h !! term_destination_port t = Some ps →
  term_clean self h l ∨ ∃ items, term_offending self h l t items.
Proof.
  intros Ht Hps. destruct (term_items_live t h ps Hps) as [items Hi].
  destruct (term_skipped self t) eqn:Hs.
  { left. exists t. auto. }
  destruct (unsupported_keywords self items) eqn:He.
  - left. exists t. split; [done|]. right. eauto.
  - right. exists items. repeat split; try done. by rewrite He.
Qed.

Lemma verify_terms_app ts1 ts2 h :
  verify_terms self (ts1 ++ ts2) h
  = (verify_terms self ts1;; verify_terms self ts2) h.
Proof.
  revert h. induction ts1 as [|l ts1 IH]; intros h; [done|].
  simpl. unfold mbind, M_bind in *.
  destruct (verify_term self l h) as [[[]|e] h']; [|done]. apply IH.
Qed.

Lemma verify_filters_validated pol h :
  verify_filters self (filters pol) h = verify_terms self (validated_terms self pol) h.
Proof.
  unfold validated_terms. revert h.
  induction (filters pol) as [|[header ts] fs IH]; intros h; [done|].
  cbn [verify_filters mbind list_bind]. rewrite verify_terms_app, !M_bind_unfold.
  destruct (platform_in (_PLATFORM self) (header_platforms header)).
  - destruct (verify_terms self ts h) as [[[]|e] h']; [|done]. apply IH.
  - apply IH.
Qed.

Lemma verify_terms_clean ts h :
  Forall (term_clean self h) ts → verify_terms self ts h = (Ok tt, h).
Proof.
  induction 1 as [|l ts Hl _ IH]; [done|].
  simpl. unfold mbind, M_bind. by rewrite verify_term_clean.
Qed.

Lemma verify_terms_first pre l post h t items :
  Forall (term_clean self h) pre →
  term_offending self h l t items →
  verify_terms self (pre ++ l :: post) h
  = (Raise (unsupported_keywords_error self t (unsupported_keywords self items)), h).
Proof.
  intros Hpre Hl. rewrite verify_terms_app. unfold mbind, M_bind.
  rewrite verify_terms_clean by done. simpl. unfold mbind, M_bind.
  by rewrite (verify_term_offending h l t items).
Qed.

(** Validation stops at the first offending term. *)
Lemma verify_terms_raises ts h l t items :
  (∀ l', l' ∈ ts → ∃ t' ps, terms h !! l' = Some t'
                            ∧ lists h !! term_destination_port t' = Some ps) →
  l ∈ ts → term_offending self h l t items →
  ∃ pre l0 post t0 items0,
    ts = pre ++ l0 :: post ∧ Forall (term_clean self h) pre
    ∧ term_offending self h l0 t0 items0.
Proof.
  induction ts as [|l' ts IH]; intros Hwf Hin Hoff.
  - by apply elem_of_nil in Hin.
  - destruct (Hwf l') as (t' & ps & Ht' & Hps); [by left|].
    destruct (live_clean_or_offending h l' t' ps Ht' Hps) as [Hc|[items' Ho]].
    + apply elem_of_cons in Hin as [->|Hin].
      { exfalso. destruct Hc as (t1 & Ht1 & Hc). destruct Hoff as (Ht & Hs & Hi & He).
        assert (t1 = t) as -> by congruence.
        destruct Hc as [Hc|(items1 & Hi1 & He1)]; [congruence|].
        assert (items1 = items) as -> by congruence. done. }
      destruct IH as (pre & l0 & post & t0 & items0 & -> & Hpre & Ho);
        [intros; apply Hwf; by right|done|done|].
      exists (l' :: pre), l0, post, t0, items0.
      split; [done|]. split; [by constructor|done].
    + exists [], l', ts, t', items'. split; [done|]. split; [constructor|done].
Qed.

End KeywordValidation.

Lemma unsupported_keywords_spec (self : ACLGenerator.Generator)
    (items : list (string * pyval)) (el : string) :
  el ∈ ACLGenerator.unsupported_keywords self items
  ↔ ∃ val, (el, val) ∈ items ∧ truthy val = true
           ∧ (el ∉ ACLGenerator._VALID_KEYWORDS self)
           ∧ String.prefix "flatten" el = false.
Proof.
  unfold ACLGenerator.unsupported_keywords, ACLGenerator.unsupported_keyword.
  rewrite list_elem_of_fmap. split.
  - intros ([el' val] & -> & [H Hin]%list_elem_of_filter). simpl in *.
    apply andb_true_iff in H as [[Ht Hv]%andb_true_iff Hf].
    exists val. repeat split; try done.
    + by apply bool_decide_eq_true in Hv.
    + by apply negb_true_iff in Hf.
  - intros (val & Hin & Ht & Hv & Hf). exists (el, val). split; [done|].
    apply list_elem_of_filter. split; [|done]. simpl.
    by rewrite Ht, (bool_decide_eq_true_2 _ Hv), Hf.
Qed.

(** C6. Construction validates the terms of the headers whose platforms
    include the target platform.  A skipped term (a non-empty platform list
    without the target, or an exclude list with it) passes whatever it
    populates, so a policy whose terms are all skipped or free of unsupported
    keywords goes on to translation.  An active term that populates an
    unsupported keyword makes construction raise [UnsupportedFilterError];
    the exception names the first such term in policy order and lists every
    populated attribute of it that is outside the valid keywords and does not
    start with flatten. *)
Theorem keyword_validation_spec (self : ACLGenerator.Generator) (h : Heap)
    (pol : Policy) (exp_info : pyval) :
  policy_wf self h pol →
  (∀ l t, terms h !! l = Some t → ACLGenerator.term_skipped self t = true →
          ACLGenerator.verify_term self l h = (Ok tt, h))
  ∧ (Forall (term_clean self h) (validated_terms self pol) →
       ACLGenerator.__init__ self pol exp_info h
       = ACLGenerator._TranslatePolicy self pol exp_info h)
  ∧ (∀ l t items,
       l ∈ validated_terms self pol → term_offending self h l t items →
       ∃ args, (ACLGenerator.__init__ self pol exp_info h).1
               = raise UnsupportedFilterError args)
  ∧ (∀ pre l post t items,
       validated_terms self pol = pre ++ l :: post →
       Forall (term_clean self h) pre →
       term_offending self h l t items →
       ACLGenerator.__init__ self pol exp_info h
       = (Raise (unsupported_keywords_error self t
                   (ACLGenerator.unsupported_keywords self items)), h))
  ∧ (∀ items el,
       el ∈ ACLGenerator.unsupported_keywords self items
       ↔ ∃ val, (el, val) ∈ items ∧ truthy val = true
                ∧ (el ∉ ACLGenerator._VALID_KEYWORDS self)
                ∧ String.prefix "flatten" el = false).
Proof.
  intros Hwf.
  assert (∀ pre l post t items,
            validated_terms self pol = pre ++ l :: post →
            Forall (term_clean self h) pre →
            term_offending self h l t items →
            ACLGenerator.__init__ self pol exp_info h
            = (Raise (unsupported_keywords_error self t
                        (ACLGenerator.unsupported_keywords self items)), h)) as Hfirst.
  { intros pre l post t items Hv Hpre Hoff.
    unfold ACLGenerator.__init__. rewrite M_bind_unfold.
    rewrite verify_filters_validated, Hv.
    by rewrite (verify_terms_first self pre l post h t items). }
  split; [|split; [|split; [|split]]].
  - intros l t Ht Hs. apply verify_term_clean. exists t. auto.
  - intros Hclean. unfold ACLGenerator.__init__. rewrite M_bind_unfold.
    by rewrite verify_filters_validated, verify_terms_clean.
  - intros l t items Hin Hoff.
    destruct (verify_terms_raises self _ h l t items Hwf Hin Hoff)
      as (pre & l0 & post & t0 & items0 & Hv & Hpre & Ho).
    rewrite (Hfirst pre l0 post t0 items0 Hv Hpre Ho). by eexists.
  - exact Hfirst.
  - intros items el. apply unsupported_keywords_spec.
Qed.

Lemma keyword_validation_spec_witness :
  ACLGenerator.__init__ (ACLGenerator.with_PLATFORM ACLGenerator.base "cisco")
    example_policy PNone example_terms
  = (Raise (MkExn UnsupportedFilterError
              [PStr NL; PStr "t-bad";
               PStr "unsupported optional keywords for target";
               PStr "cisco"; PStr "in policy:"; PStr "foo bar"]),
     example_terms).
Proof.
  set (self := ACLGenerator.with_PLATFORM ACLGenerator.base "cisco").
  assert (policy_wf self example_terms example_policy) as Hwf.
  { intros l Hl. vm_compute in Hl.
    apply elem_of_cons in Hl as [->|Hl]; [by eexists _, _|].
    apply elem_of_cons in Hl as [->|Hl]; [by eexists _, _|].
    by apply elem_of_nil in Hl. }
  destruct (keyword_validation_spec self example_terms example_policy PNone Hwf)
    as (_ & _ & _ & Hfirst & _).
  pose (t := MkPolicyTerm "t-bad" ["tcp"] ["established"] 1%nat [] []
               [("foo", PInt 1); ("flatten_x", PInt 1); ("bar", PStr "x")]).
  let r := eval vm_compute in (ACLGenerator.term_items t example_terms).1 in
  match r with Ok ?i => pose (items := i) end.
  etrans; [apply (Hfirst [0%nat] 1%nat [] t items eq_refl)|].
  - constructor; [|constructor]. eexists. split; [reflexivity|]. by left.
  - repeat split; try reflexivity. by vm_compute.
  - vm_compute. reflexivity.
Defined.

(** ** Port-list collapsing *)

Section CollapseFacts.
Import Collapse.

Implicit Types (p q : PortRange) (l : list PortRange) (x : Z).

(** *** Sorting by lower bound *)

Lemma elem_of_insert_by_low q p l : q ∈ insert_by_low p l ↔ q = p ∨ q ∈ l.
Proof.
  induction l as [|r l IH]; simpl.
  - rewrite list_elem_of_singleton, elem_of_nil. tauto.
  - destruct (p.1 <=? r.1).
    + by rewrite elem_of_cons.
    + rewrite !elem_of_cons, IH. tauto.
Qed.

Lemma elem_of_sort_by_low q l : q ∈ sort_by_low l ↔ q ∈ l.
Proof.
  induction l as [|r l IH]; simpl; [done|].
  by rewrite elem_of_insert_by_low, elem_of_cons, IH.
Qed.

Lemma length_insert_by_low p l : length (insert_by_low p l) = S (length l).
Proof.
  induction l as [|r l IH]; simpl; [done|].
  destruct (p.1 <=? r.1); simpl; [done|]. by rewrite IH.
Qed.

Lemma length_sort_by_low l : length (sort_by_low l) = length l.
Proof.
  induction l as [|r l IH]; simpl; [done|]. by rewrite length_insert_by_low, IH.
Qed.

Lemma HdRel_insert_by_low r p l :
  low_le r p → HdRel low_le r l → HdRel low_le r (insert_by_low p l).
Proof.
  intros Hrp Hl. destruct l as [|q l]; simpl; [by constructor|].
  destruct (p.1 <=? q.1); constructor; [done|]. by inversion Hl.
Qed.

Lemma Sorted_insert_by_low p l :
  Sorted low_le l → Sorted low_le (insert_by_low p l).
Proof.
  induction 1 as [|q l Hl IH Hq]; simpl; [by repeat constructor|].
  destruct (p.1 <=? q.1) eqn:E.
  - apply Z.leb_le in E. constructor; [by constructor|by constructor].
  - apply Z.leb_gt in E. constructor; [done|].
    apply HdRel_insert_by_low; [unfold low_le; lia|done].
Qed.

Lemma Sorted_sort_by_low l : Sorted low_le (sort_by_low l).
Proof.
  induction l as [|p l IH]; simpl; [constructor|]. by apply Sorted_insert_by_low.
Qed.

Lemma sort_by_low_sorted l : Sorted low_le l → sort_by_low l = l.
Proof.
  induction 1 as [|p l Hl IH Hp]; simpl; [done|]. rewrite IH.
  destruct Hp as [|q l Hpq]; simpl; [done|].
  unfold low_le in Hpq. by rewrite (proj2 (Z.leb_le _ _) Hpq).
Qed.

(** *** Merging *)

Lemma merge_into_low prev l : ∃ hi l', merge_into prev l = (prev.1, hi) :: l'.
Proof.
  revert prev. induction l as [|p l IH]; intros prev; simpl.
  - exists prev.2, []. by destruct prev.
  - destruct (p.1 <=? prev.2 + 1).
    + destruct (IH (prev.1, Z.max prev.2 p.2)) as (hi & l' & ->). by exists hi, l'.
    + exists prev.2, (merge_into p l). by destruct prev.
Qed.

Lemma Sorted_gap_merge_into prev l : Sorted gap (merge_into prev l).
Proof.
  revert prev. induction l as [|p l IH]; intros prev; simpl.
  - by repeat constructor.
  - destruct (p.1 <=? prev.2 + 1) eqn:E; [apply IH|].
    apply Z.leb_gt in E. constructor; [apply IH|].
    destruct (merge_into_low p l) as (hi & l' & ->). constructor.
    unfold gap. simpl. lia.
Qed.

Lemma Sorted_low_merge_into prev l :
  Sorted low_le (prev :: l) → Sorted low_le (merge_into prev l).
Proof.
  revert prev. induction l as [|p l IH]; intros prev Hs; simpl.
  - by repeat constructor.
  - apply Sorted_inv in Hs as [Hs Hhd]. apply HdRel_inv in Hhd.
    destruct (p.1 <=? prev.2 + 1) eqn:E.
    + apply IH. apply Sorted_inv in Hs as [Hs Hhd']. constructor; [done|].
      destruct Hhd' as [|q l Hpq]; constructor. unfold low_le in *. simpl. lia.
    + constructor; [by apply IH|].
      destruct (merge_into_low p l) as (hi & l' & ->). by constructor.
Qed.

Lemma merge_into_separated prev l :
  Sorted gap (prev :: l) → merge_into prev l = prev :: l.
Proof.
  revert prev. induction l as [|p l IH]; intros prev Hs; simpl; [done|].
  apply Sorted_inv in Hs as [Hs Hhd]. apply HdRel_inv in Hhd.
  unfold gap in Hhd. rewrite (proj2 (Z.leb_gt _ _)) by lia. by rewrite IH.
Qed.

Lemma length_merge_into prev l : (length (merge_into prev l) ≤ S (length l))%nat.
Proof.
  revert prev. induction l as [|p l IH]; intros prev; simpl; [done|].
  destruct (p.1 <=? prev.2 + 1); simpl.
  - specialize (IH (prev.1, Z.max prev.2 p.2)). lia.
  - specialize (IH p). lia.
Qed.

Lemma covers_cons p l x : covers (p :: l) x ↔ in_range p x ∨ covers l x.
Proof.
  unfold covers. split.
  - intros (q & [->|Hq]%elem_of_cons & Hx); [by left|right; eauto].
  - intros [Hx|(q & Hq & Hx)]; [exists p|exists q]; split; try done;
      [by left|by right].
Qed.

Lemma covers_nil x : ¬ covers [] x.
Proof. intros (q & Hq & _). by apply elem_of_nil in Hq. Qed.

Lemma covers_merge_into prev l x :
  Sorted low_le (prev :: l) →
  covers (merge_into prev l) x ↔ in_range prev x ∨ covers l x.
Proof.
  revert prev. induction l as [|p l IH]; intros prev Hs; simpl.
  - apply covers_cons.
  - apply Sorted_inv in Hs as [Hs Hhd]. apply HdRel_inv in Hhd.
    unfold low_le in Hhd.
    destruct (p.1 <=? prev.2 + 1) eqn:E.
    + apply Z.leb_le in E. rewrite IH, covers_cons.
      * unfold in_range. simpl. split; intros [H|H]; try tauto; [|lia|].
        -- destruct (decide (x ≤ prev.2)); [left; lia|right; left; lia].
        -- destruct H as [H|H]; [|tauto]. left. lia.
      * apply Sorted_inv in Hs as [Hs Hhd']. constructor; [done|].
        destruct Hhd' as [|q l Hpq]; constructor. unfold low_le in *. simpl. lia.
    + rewrite covers_cons, IH by done. by rewrite covers_cons.
Qed.

Lemma intervals_merge_into prev l :
  intervals (prev :: l) → intervals (merge_into prev l).
Proof.
  unfold intervals. revert prev. induction l as [|p l IH]; intros prev Hw; simpl; [done|].
  apply Forall_cons in Hw as [Hprev Hw]. apply Forall_cons in Hw as [Hp Hw].
  destruct (p.1 <=? prev.2 + 1).
  - apply IH. constructor; [simpl; lia|done].
  - constructor; [done|]. apply IH. by constructor.
Qed.


(** *** The collapsed list *)

Lemma Sorted_low_CollapsePortList l : Sorted low_le (CollapsePortList l).
Proof.
  unfold CollapsePortList, merge_sorted.
  pose proof (Sorted_sort_by_low l) as Hs.
  destruct (sort_by_low l) as [|p s]; [constructor|]. by apply Sorted_low_merge_into.
Qed.

Lemma Sorted_gap_CollapsePortList l : Sorted gap (CollapsePortList l).
Proof.
  unfold CollapsePortList, merge_sorted.
  destruct (sort_by_low l) as [|p s]; [constructor|]. apply Sorted_gap_merge_into.
Qed.

Lemma covers_CollapsePortList l x : covers (CollapsePortList l) x ↔ covers l x.
Proof.
  unfold CollapsePortList, merge_sorted.
  pose proof (Sorted_sort_by_low l) as Hs.
  assert (covers (sort_by_low l) x ↔ covers l x) as <-.
  { unfold covers. by setoid_rewrite elem_of_sort_by_low. }
  destruct (sort_by_low l) as [|p s]; [done|].
  by rewrite covers_merge_into, covers_cons.
Qed.

Lemma intervals_CollapsePortList l : intervals l → intervals (CollapsePortList l).
Proof.
  intros Hw. unfold CollapsePortList, merge_sorted.
  assert (intervals (sort_by_low l)) as Hs.
  { unfold intervals in *. rewrite Forall_forall in *.
    intros p Hp. apply Hw. by apply elem_of_sort_by_low. }
  destruct (sort_by_low l) as [|p s]; [done|]. by apply intervals_merge_into.
Qed.

Lemma length_CollapsePortList l : (length (CollapsePortList l) ≤ length l)%nat.
Proof.
  unfold CollapsePortList, merge_sorted. rewrite <- (length_sort_by_low l).
  destruct (sort_by_low l) as [|p s]; [done|]. apply length_merge_into.
Qed.

(** A list that is already sorted and separated is left as it is. *)
Lemma CollapsePortList_collapsed l :
  Sorted low_le l → Sorted gap l → CollapsePortList l = l.
Proof.
  intros Hlow Hgap. unfold CollapsePortList. rewrite sort_by_low_sorted by done.
  destruct l as [|p l]; [done|]. by apply merge_into_separated.
Qed.

(** *** Uniqueness of the collapsed form *)

(** In a separated list of intervals, everything after the head lies beyond
    the head's upper bound plus one. *)
Lemma separated_tail_above p l q :
  intervals (p :: l) → Sorted gap (p :: l) → q ∈ l → p.2 + 1 < q.1.
Proof.
  revert p. induction l as [|r l IH]; intros p Hw Hs Hq.
  - by apply elem_of_nil in Hq.
  - apply Sorted_inv in Hs as [Hs Hhd]. apply HdRel_inv in Hhd. unfold gap in Hhd.
    apply Forall_cons in Hw as [Hp Hw].
    apply elem_of_cons in Hq as [->|Hq]; [done|].
    pose proof (IH r Hw Hs Hq). apply Forall_cons in Hw as [Hr _]. lia.
Qed.

Lemma separated_covers_tail p l x :
  intervals (p :: l) → Sorted gap (p :: l) → covers l x → p.2 + 1 < x.
Proof.
  intros Hw Hs (q & Hq & Hx). pose proof (separated_tail_above p l q Hw Hs Hq).
  unfold in_range in Hx. lia.
Qed.

Lemma collapsed_unique l1 l2 :
  intervals l1 → Sorted gap l1 → intervals l2 → Sorted gap l2 →
  (∀ x, covers l1 x ↔ covers l2 x) → l1 = l2.
Proof.
  revert l2. induction l1 as [|p l1 IH]; intros l2 Hw1 Hs1 Hw2 Hs2 Hc.
  - destruct l2 as [|q l2]; [done|]. exfalso.
    apply (covers_nil q.1), Hc, covers_cons. left.
    apply Forall_cons in Hw2 as [Hq _]. unfold in_range. lia.
  - destruct l2 as [|q l2].
    { exfalso. apply (covers_nil p.1), Hc, covers_cons. left.
      apply Forall_cons in Hw1 as [Hp _]. unfold in_range. lia. }
    pose proof (separated_covers_tail p l1) as Ht1.
    pose proof (separated_covers_tail q l2) as Ht2.
    pose proof Hw1 as Hw1'. pose proof Hw2 as Hw2'.
    apply Forall_cons in Hw1' as [Hp Hw1']. apply Forall_cons in Hw2' as [Hq Hw2'].
    assert (∀ x, covers (p :: l1) x → q.1 ≤ x) as Hmin1.
    { intros x [Hx|Hx]%Hc%covers_cons; [unfold in_range in Hx; lia|].
      specialize (Ht2 x Hw2 Hs2 Hx). lia. }
    assert (∀ x, covers (q :: l2) x → p.1 ≤ x) as Hmin2.
    { intros x [Hx|Hx]%Hc%covers_cons; [unfold in_range in Hx; lia|].
      specialize (Ht1 x Hw1 Hs1 Hx). lia. }
    assert (p.1 = q.1) as Hlo.
    { apply Z.le_antisymm.
      - apply Hmin2, covers_cons. left. unfold in_range. lia.
      - apply Hmin1, covers_cons. left. unfold in_range. lia. }
    assert (p.2 = q.2) as Hhi.
    { destruct (Z.lt_trichotomy p.2 q.2) as [Hlt|[Heq|Hgt]]; [exfalso|done|exfalso].
      - assert (covers (p :: l1) (p.2 + 1)) as [Hx|Hx]%covers_cons.
        { apply Hc, covers_cons. left. unfold in_range. lia. }
        + unfold in_range in Hx. lia.
        + specialize (Ht1 _ Hw1 Hs1 Hx). lia.
      - assert (covers (q :: l2) (q.2 + 1)) as [Hx|Hx]%covers_cons.
        { apply Hc, covers_cons. left. unfold in_range. lia. }
        + unfold in_range in Hx. lia.
        + specialize (Ht2 _ Hw2 Hs2 Hx). lia. }
    assert (p = q) as -> by (destruct p, q; simpl in *; congruence).
    f_equal. apply IH; try done.
    + by apply Sorted_inv in Hs1 as [? _].
    + by apply Sorted_inv in Hs2 as [? _].
    + intros x. split; intros Hx.
      * assert (covers (q :: l2) x) as [Hx'|Hx']%covers_cons;
          [apply Hc, covers_cons; by right| |done].
        specialize (Ht1 x Hw1 Hs1 Hx). unfold in_range in Hx'. lia.
      * assert (covers (q :: l1) x) as [Hx'|Hx']%covers_cons;
          [apply Hc, covers_cons; by right| |done].
        specialize (Ht2 x Hw2 Hs2 Hx). unfold in_range in Hx'. lia.
Qed.

(** C9. Collapsing is idempotent.  The collapsed list is in ascending order,
    its intervals are pairwise disjoint and not adjacent, and it covers the
    ports of the input; for a list of intervals it is the only such list of
    intervals, and no list of intervals covering the same ports is shorter. *)
Theorem CollapsePortList_spec (ports : list PortRange) :
  CollapsePortList (CollapsePortList ports) = CollapsePortList ports
  ∧ Sorted low_le (CollapsePortList ports)
  ∧ Sorted gap (CollapsePortList ports)
  ∧ (∀ x, covers (CollapsePortList ports) x ↔ covers ports x)
  ∧ (intervals ports →
       intervals (CollapsePortList ports)
       ∧ (∀ l, intervals l → Sorted gap l → (∀ x, covers l x ↔ covers ports x) →
               l = CollapsePortList ports)
       ∧ (∀ l, intervals l → (∀ x, covers l x ↔ covers ports x) →
               (length (CollapsePortList ports) ≤ length l)%nat)).
Proof.
  split; [|split; [|split; [|split]]].
  - apply CollapsePortList_collapsed;
      [apply Sorted_low_CollapsePortList|apply Sorted_gap_CollapsePortList].
  - apply Sorted_low_CollapsePortList.
  - apply Sorted_gap_CollapsePortList.
  - apply covers_CollapsePortList.
  - intros Hw. split; [by apply intervals_CollapsePortList|].
    assert (∀ l, intervals l → Sorted gap l → (∀ x, covers l x ↔ covers ports x) →
                 l = CollapsePortList ports) as Huniq.
    { intros l Hl Hs Hc. apply collapsed_unique; try done.
      - by apply intervals_CollapsePortList.
      - apply Sorted_gap_CollapsePortList.
      - intros x. by rewrite Hc, covers_CollapsePortList. }
    split; [done|]. intros l Hl Hc.
    rewrite <- (Huniq (CollapsePortList l)).
    + apply length_CollapsePortList.
    + by apply intervals_CollapsePortList.
    + apply Sorted_gap_CollapsePortList.
    + intros x. by rewrite covers_CollapsePortList.
Qed.

End CollapseFacts.

(** The two lists of the specification's examples. *)
Lemma CollapsePortList_spec_witness :
  intervals (Collapse.CollapsePortList [(1023, 1030); (1024, 65535)])
  ∧ Collapse.CollapsePortList [(1023, 1030); (1024, 65535)] = [(1023, 65535)]
  ∧ Collapse.CollapsePortList [(80, 80); (1024, 65535)] = [(80, 80); (1024, 65535)].
Proof.
  split; [|split; reflexivity].
  apply (CollapsePortList_spec [(1023, 1030); (1024, 65535)]).
  repeat constructor; simpl; lia.
Defined.

(** ** FixHighPorts *)

Section FixHighPortsFacts.
Import ACLGenerator.

Variable self : Generator.

Implicit Types (h : Heap) (t : PolicyTerm) (term : loc) (af : pyatom).

Lemma fresh_terms_None h : terms h !! fresh (dom (terms h)) = None.
Proof. apply not_elem_of_dom, is_fresh. Qed.

Lemma fresh_lists_None h : lists h !! fresh (dom (lists h)) = None.
Proof. apply not_elem_of_dom, is_fresh. Qed.

Lemma get_term_run h l t : terms h !! l = Some t → get_term l h = (Ok t, h).
Proof. intros H. unfold get_term. by rewrite H. Qed.

Lemma get_list_run h l ps : lists h !! l = Some ps → get_list l h = (Ok ps, h).
Proof. intros H. unfold get_list. by rewrite H. Qed.

(** One step of a computation: expose the first action of a bind. *)
Ltac mstep := rewrite ?M_bind_unfold; cbv beta iota.

(** The heap after the TCP/UDP branch: one new term object, and two new list
    objects of which the second is the collapsed list the copy ends up
    holding. *)
Lemma add_high_ports_run h term t ps :
  terms h !! term = Some t →
  lists h !! term_destination_port t = Some ps →
  let lt := fresh (dom (terms h)) in
  let lp := fresh (dom (lists h)) in
  let ps' := ps ++ [(1024, 65535)] in
  let l2 := fresh (dom (<[lp := ps']> (lists h))) in
  add_high_ports term h
  = (Ok lt,
     MkHeap (<[lt := set_destination_port t l2]> (terms h))
            (<[l2 := Collapse.CollapsePortList ps']> (<[lp := ps']> (lists h)))).
Proof.
  intros Ht Hps lt lp ps' l2. unfold add_high_ports, deepcopy.
  mstep. rewrite (get_term_run _ _ _ Ht).
  mstep. rewrite (get_list_run _ _ _ Hps).
  mstep. unfold new_list at 1. cbn [terms lists]. fold lp.
  mstep. unfold new_term at 1. cbn [terms lists]. fold lt.
  unfold destination_port_append.
  mstep. erewrite get_term_run by (cbn [terms]; apply lookup_insert_eq).
  mstep. erewrite get_list_run by (cbn [lists term_destination_port set_destination_port];
                                   apply lookup_insert_eq).
  mstep. unfold modify at 1. cbn [terms lists term_destination_port set_destination_port].
  rewrite insert_insert_eq. fold ps'.
  mstep. erewrite get_term_run by (cbn [terms]; apply lookup_insert_eq).
  mstep. erewrite get_list_run by (cbn [lists term_destination_port set_destination_port];
                                   apply lookup_insert_eq).
  mstep. unfold new_list at 1. cbn [terms lists]. fold l2.
  unfold destination_port_assign.
  mstep. erewrite get_term_run by (cbn [terms]; apply lookup_insert_eq).
  mstep. unfold modify. cbn [terms lists set_destination_port term_name term_protocol
                      term_option term_platform term_platform_exclude term_attrs].
  rewrite insert_insert_eq. reflexivity.
Qed.


Lemma add_high_ports_dangling h term t :
  terms h !! term = Some t →
  lists h !! term_destination_port t = None →
  add_high_ports term h
  = (raise InvalidReference [PInt (Z.of_nat (term_destination_port t))], h).
Proof.
  intros Ht Hps. unfold add_high_ports, deepcopy.
  mstep. rewrite (get_term_run _ _ _ Ht).
  mstep. unfold get_list. by rewrite Hps.
Qed.

(** The loop over the options: without an established option it returns the
    term it was given. *)
Lemma scan_options_none term t protocols aps opts h :
  Forall (λ opt, is_established opt = false) opts →
  scan_options term t protocols aps opts h = (Ok term, h).
Proof. induction 1 as [|opt opts Hopt _ IH]; simpl; [done|]. by rewrite Hopt. Qed.

(** With an established option the loop runs its body once, at the first
    such option, whatever the other options are. *)
Lemma scan_options_established term t protocols aps opts :
  has_established opts →
  scan_options term t protocols aps opts
  = if bool_decide (protocols ∖ {["tcp"; "udp"]} = ∅) then add_high_ports term
    else if negb aps then
      throw EstablishedError
        [PStr "Established option supplied with inappropriate protocol(s)";
         PStrs (elements (protocols ∖ {["tcp"; "udp"]})); PStr "in term";
         PStr (term_name t)]
    else mret term.
Proof.
  intros (o & Ho & He). induction opts as [|opt opts IH]; [by apply elem_of_nil in Ho|].
  simpl. destruct (is_established opt) eqn:E; [done|].
  apply IH. apply elem_of_cons in Ho as [->|Ho]; [congruence|done].
Qed.

Lemma established_or_not opts :
  has_established opts ∨ Forall (λ opt, is_established opt = false) opts.
Proof.
  induction opts as [|opt opts [IH|IH]].
  - right. constructor.
  - left. destruct IH as (o & Ho & He). exists o. split; [by right|done].
  - destruct (is_established opt) eqn:E.
    + left. exists opt. split; [by left|done].
    + right. by constructor.
Qed.

Lemma established_and_not opts :
  has_established opts → Forall (λ opt, is_established opt = false) opts → False.
Proof.
  intros (o & Ho & He) Hall. rewrite Forall_forall in Hall.
  specialize (Hall o Ho). congruence.
Qed.

(** Past the two guards the method is its loop over the options. *)
Lemma FixHighPorts_guards h term t af aps :
  terms h !! term = Some t →
  passes_guards self t af →
  FixHighPorts self term af aps h
  = scan_options term t (effective_protocols self t) aps (term_option t) h.
Proof.
  intros Ht [Haf Hbl]. unfold FixHighPorts.
  mstep. rewrite (get_term_run _ _ _ Ht).
  rewrite bool_decide_eq_false_2 by (intros H; by apply H).
  mstep. destruct (_FILTER_BLACKLIST self !! af) as [bl|] eqn:Ebl; [|done].
  rewrite bool_decide_eq_false_2; [done|]. intros H. by apply H, Hbl.
Qed.

Lemma FixHighPorts_unsupported_af h term t af aps :
  terms h !! term = Some t →
  af ∉ _SUPPORTED_AF self →
  FixHighPorts self term af aps h
  = (raise UnsupportedAF
       [PAtom af; PStr (term_name t); platform_val (_PLATFORM self)], h).
Proof.
  intros Ht Haf. unfold FixHighPorts.
  mstep. rewrite (get_term_run _ _ _ Ht).
  by rewrite bool_decide_eq_true_2.
Qed.

(** A call that returns has passed the two guards. *)
Lemma FixHighPorts_Ok_inv h term af aps mod' h' :
  FixHighPorts self term af aps h = (Ok mod', h') →
  ∃ t, terms h !! term = Some t ∧ passes_guards self t af.
Proof.
  unfold FixHighPorts. mstep. unfold get_term.
  destruct (terms h !! term) as [t|] eqn:Ht; [|done].
  case_bool_decide as Haf; [done|].
  mstep. intros H. exists t. split; [done|]. split.
  - done.
  - intros bl Hbl. rewrite Hbl in H. case_bool_decide as Hb; [done|].
    destruct (decide (bl ∩ effective_protocols self t = ∅)); [done|]. by destruct Hb.
Qed.


Lemma difference_empty_subseteq (X Y : gset string) : X ∖ Y = ∅ ↔ X ⊆ Y.
Proof.
  split.
  - intros H x Hx. destruct (decide (x ∈ Y)) as [|Hy]; [done|].
    assert (x ∈ X ∖ Y) as Hd by by apply elem_of_difference.
    rewrite H in Hd. by apply not_elem_of_empty in Hd.
  - intros H. apply set_eq. intros x.
    rewrite elem_of_difference, elem_of_empty. split; [|done].
    intros [Hx Hy]. by apply Hy, H.
Qed.

(** C1, amended.  When the address family is supported and no protocol of
    the term is blacklisted for it, a term with an established option whose
    protocols are all TCP or UDP yields a new term object: a copy of the term
    whose destination port list is a new list object holding the original
    ports with (1024, 65535) appended, collapsed.  The original term and its
    list are as before the call, and the other options play no part. *)
Theorem FixHighPorts_established_tcp_udp h term t ps af aps :
  terms h !! term = Some t →
  lists h !! term_destination_port t = Some ps →
  passes_guards self t af →
  has_established (term_option t) →
  effective_protocols self t ⊆ {["tcp"; "udp"]} →
  ∃ mod' l h',
    FixHighPorts self term af aps h = (Ok mod', h')
    ∧ terms h !! mod' = None ∧ lists h !! l = None
    ∧ terms h' !! mod' = Some (set_destination_port t l)
    ∧ lists h' !! l = Some (Collapse.CollapsePortList (ps ++ [(1024, 65535)]))
    ∧ terms h' !! term = Some t
    ∧ lists h' !! term_destination_port t = Some ps.
Proof.
  intros Ht Hps Hg He Hp.
  rewrite (FixHighPorts_guards h term t af aps Ht Hg).
  rewrite scan_options_established by done.
  rewrite bool_decide_eq_true_2 by by apply difference_empty_subseteq.
  rewrite (add_high_ports_run h term t ps Ht Hps). cbv zeta.
  set (lt := fresh (dom (terms h))).
  set (lp := fresh (dom (lists h))).
  set (ps' := ps ++ [(1024, 65535)]).
  set (l2 := fresh (dom (<[lp := ps']> (lists h)))).
  assert (terms h !! lt = None) as Hlt by apply fresh_terms_None.
  assert (lists h !! lp = None) as Hlp by apply fresh_lists_None.
  assert (<[lp := ps']> (lists h) !! l2 = None) as Hl2
    by apply not_elem_of_dom, is_fresh.
  assert (lists h !! l2 = None) as Hl2'.
  { apply lookup_insert_None in Hl2. tauto. }
  eexists lt, l2, _. split; [reflexivity|]. cbn [terms lists].
  repeat split; try done.
  - apply lookup_insert_eq.
  - apply lookup_insert_eq.
  - rewrite lookup_insert_ne; [done|]. intros Heq. rewrite <- Heq in Ht. congruence.
  - rewrite !lookup_insert_ne; [done|..]; intros Heq; rewrite <- Heq in Hps;
      first [discriminate (eq_trans (eq_sym Hps) Hlp)
            |discriminate (eq_trans (eq_sym Hps) Hl2')].
Qed.

(** C4, amended.  When the address family is supported and no protocol of
    the term is blacklisted for it, a term with an established option and a
    protocol other than TCP and UDP makes the call raise [EstablishedError],
    naming those protocols and the term, unless all protocols are stateful;
    then the call returns the term it was given and changes nothing. *)
Theorem FixHighPorts_established_other h term t af aps :
  terms h !! term = Some t →
  passes_guards self t af →
  has_established (term_option t) →
  (∃ p, p ∈ effective_protocols self t ∧ p ≠ "tcp" ∧ p ≠ "udp") →
  let unstateful_protocols := effective_protocols self t ∖ {["tcp"; "udp"]} in
  (aps = false →
     FixHighPorts self term af aps h
     = (raise EstablishedError
          [PStr "Established option supplied with inappropriate protocol(s)";
           PStrs (elements unstateful_protocols); PStr "in term";
           PStr (term_name t)], h))
  ∧ (aps = true → FixHighPorts self term af aps h = (Ok term, h))
  ∧ (∀ p, p ∈ elements unstateful_protocols
          ↔ p ∈ effective_protocols self t ∧ p ≠ "tcp" ∧ p ≠ "udp").
Proof.
  intros Ht Hg He (p & Hp & Htcp & Hudp) U.
  rewrite (FixHighPorts_guards h term t af aps Ht Hg).
  rewrite scan_options_established by done.
  rewrite bool_decide_eq_false_2.
  2:{ intros H%difference_empty_subseteq. apply H in Hp.
      apply elem_of_union in Hp as [Hp|Hp]; apply elem_of_singleton in Hp; done. }
  split; [|split].
  - by intros ->.
  - by intros ->.
  - intros q. rewrite elem_of_elements. subst U.
    rewrite elem_of_difference, not_elem_of_union, !not_elem_of_singleton. tauto.
Qed.

(** Every object of the store before a call is in the store after it, as it
    was. *)
Lemma FixHighPorts_preserves h term af aps r h' :
  FixHighPorts self term af aps h = (r, h') →
  terms h ⊆ terms h' ∧ lists h ⊆ lists h'
  ∧ (∀ t, terms h !! term = Some t →
          Forall (λ opt, is_established opt = false) (term_option t) →
          r = Ok term ∧ h' = h ∨ ∃ e, r = Raise e ∧ h' = h).
Proof.
  intros Hrun.
  assert (h' = h → terms h ⊆ terms h' ∧ lists h ⊆ lists h') as Hsame by by intros ->.
  revert Hrun. unfold FixHighPorts. mstep. unfold get_term.
  destruct (terms h !! term) as [t|] eqn:Ht.
  2:{ intros [= <- <-]. split; [done|]. split; [done|]. done. }
  case_bool_decide as Haf.
  { intros [= <- <-]. split; [done|]. split; [done|]. intros. right. by eexists. }
  mstep.
  assert (∀ X : result loc * Heap,
            X = scan_options term t (effective_protocols self t) aps (term_option t) h →
            X = (r, h') →
            terms h ⊆ terms h' ∧ lists h ⊆ lists h'
            ∧ (∀ t0, Some t = Some t0 →
                  Forall (λ opt, is_established opt = false) (term_option t0) →
                  r = Ok term ∧ h' = h ∨ ∃ e, r = Raise e ∧ h' = h)) as Hscan.
  { intros X -> Hrun.
    destruct (established_or_not (term_option t)) as [He|Hne].
    - rewrite scan_options_established in Hrun by done.
      assert (∀ t0, Some t = Some t0 →
                Forall (λ opt, is_established opt = false) (term_option t0) →
                r = Ok term ∧ h' = h ∨ ∃ e, r = Raise e ∧ h' = h) as Hvac.
      { intros t0 [= <-] Hall. by destruct (established_and_not _ He Hall). }
      case_bool_decide.
      + destruct (lists h !! term_destination_port t) as [ps|] eqn:Hps.
        * rewrite (add_high_ports_run h term t ps Ht Hps) in Hrun.
          injection Hrun as <- <-. cbn [terms lists]. split; [|split; [|done]].
          -- apply insert_subseteq, fresh_terms_None.
          -- etrans; [apply insert_subseteq, fresh_lists_None|].
             apply insert_subseteq, not_elem_of_dom, is_fresh.
        * rewrite (add_high_ports_dangling h term t Ht Hps) in Hrun.
          injection Hrun as <- <-. auto.
      + destruct aps; simpl in Hrun; injection Hrun as <- <-; auto.
    - rewrite scan_options_none in Hrun by done. injection Hrun as <- <-.
      split; [done|]. split; [done|]. intros. by left. }
  destruct (_FILTER_BLACKLIST self !! af) as [bl|].
  - case_bool_decide.
    + intros [= <- <-]. split; [done|]. split; [done|]. intros. right. by eexists.
    + by apply Hscan.
  - by apply Hscan.
Qed.

(** C2.  A call that returns leaves the term it was given, and the list in
    its destination_port, as they were, along with every other object; and
    when no option of the term starts with established, what it returns is
    the term it was given, and the store is the same. *)
Theorem FixHighPorts_frame h term af aps mod' h' :
  FixHighPorts self term af aps h = (Ok mod', h') →
  (∀ t, terms h !! term = Some t →
        terms h' !! term = Some t
        ∧ lists h' !! term_destination_port t = lists h !! term_destination_port t)
  ∧ (∀ l t, terms h !! l = Some t → terms h' !! l = Some t)
  ∧ (∀ l ps, lists h !! l = Some ps → lists h' !! l = Some ps)
  ∧ (∀ t, terms h !! term = Some t →
          Forall (λ opt, is_established opt = false) (term_option t) →
          mod' = term ∧ h' = h).
Proof.
  intros Hrun.
  destruct (FixHighPorts_preserves h term af aps _ _ Hrun) as (Hterms & Hlists & Hno).
  assert (∀ l t, terms h !! l = Some t → terms h' !! l = Some t) as Ht.
  { intros l t Hl. by eapply lookup_weaken. }
  assert (∀ l ps, lists h !! l = Some ps → lists h' !! l = Some ps) as Hl.
  { intros l ps Hps. by eapply lookup_weaken. }
  split; [|split; [done|split; [done|]]].
  - intros t Hterm. split; [by apply Ht|].
    destruct (lists h !! term_destination_port t) as [ps|] eqn:Hps; [by apply Hl|].
    destruct (FixHighPorts_Ok_inv h term af aps mod' h' Hrun) as (t' & Ht' & Hg).
    assert (t' = t) as -> by congruence.
    rewrite (FixHighPorts_guards h term t af aps Hterm Hg) in Hrun.
    destruct (established_or_not (term_option t)) as [He|Hne].
    + rewrite scan_options_established in Hrun by done.
      case_bool_decide.
      * by rewrite (add_high_ports_dangling h term t Hterm Hps) in Hrun.
      * destruct aps; simpl in Hrun; [|done]. injection Hrun as <- <-.
        exact Hps.
    + rewrite scan_options_none in Hrun by done. injection Hrun as <- <-.
      exact Hps.
  - intros t Hterm Hall. destruct (Hno t Hterm Hall) as [[[= <-] ->]|(e & [=] & _)].
    done.
Qed.

(** Outside the supported set nothing else is looked at. *)
Lemma FixHighPorts_raise_class h term af aps e h' :
  FixHighPorts self term af aps h = (Raise e, h') →
  af ∈ _SUPPORTED_AF self →
  exn_class e ≠ UnsupportedAF.
Proof.
  intros Hrun Haf. revert Hrun. unfold FixHighPorts. mstep. unfold get_term.
  destruct (terms h !! term) as [t|] eqn:Ht; [|by intros [= <- <-]].
  rewrite bool_decide_eq_false_2 by (intros H; by apply H).
  mstep.
  assert (scan_options term t (effective_protocols self t) aps (term_option t) h
          = (Raise e, h') → exn_class e ≠ UnsupportedAF) as Hscan.
  { destruct (established_or_not (term_option t)) as [He|Hne].
    - rewrite scan_options_established by done. case_bool_decide.
      + destruct (lists h !! term_destination_port t) as [ps|] eqn:Hps.
        * by rewrite (add_high_ports_run h term t ps Ht Hps).
        * rewrite (add_high_ports_dangling h term t Ht Hps). by intros [= <- <-].
      + destruct aps; simpl; [done|]. by intros [= <- <-].
    - by rewrite scan_options_none. }
  destruct (_FILTER_BLACKLIST self !! af) as [bl|]; [|done].
  case_bool_decide; [by intros [= <- <-]|done].
Qed.

(** C10.  Under the supported set of the base class, the names inet and
    inet6, a numeric address family makes [FixHighPorts] raise
    [UnsupportedAF] for every term: the family is looked up in that set as it
    is given, so the two names are the only values that pass the check. *)
Theorem FixHighPorts_numeric_af h term t (n : Z) aps :
  terms h !! term = Some t →
  _SUPPORTED_AF self = {[AStr "inet"; AStr "inet6"]} →
  FixHighPorts self term (AInt n) aps h
  = (raise UnsupportedAF
       [PAtom (AInt n); PStr (term_name t); platform_val (_PLATFORM self)], h)
  ∧ (∀ af, raises (FixHighPorts self term af aps h).1 UnsupportedAF
           ↔ af ≠ AStr "inet" ∧ af ≠ AStr "inet6").
Proof.
  intros Ht Hsup.
  assert (∀ af, af ∈ _SUPPORTED_AF self ↔ af = AStr "inet" ∨ af = AStr "inet6") as Hin.
  { intros af. rewrite Hsup, elem_of_union, !elem_of_singleton. tauto. }
  split.
  - apply FixHighPorts_unsupported_af; [done|]. rewrite Hin. by intros [|].
  - intros af. split.
    + intros [args Hr]. destruct (decide (af ∈ _SUPPORTED_AF self)) as [Haf|Haf].
      * destruct (FixHighPorts self term af aps h) as [r h'] eqn:Hrun.
        simpl in Hr. subst r.
        by destruct (FixHighPorts_raise_class h term af aps _ _ Hrun Haf).
      * rewrite Hin in Haf. tauto.
    + intros Hne. rewrite (FixHighPorts_unsupported_af h term t af aps Ht).
      * by eexists.
      * rewrite Hin. tauto.
Qed.

End FixHighPortsFacts.

(** *** Instances on the example terms *)

Lemma base_passes_guards (t : PolicyTerm) :
  passes_guards ACLGenerator.base t (AStr "inet").
Proof.
  split.
  - apply elem_of_union. left. by apply elem_of_singleton.
  - intros bl Hbl. cbn [ACLGenerator._FILTER_BLACKLIST ACLGenerator.base] in Hbl.
    by rewrite lookup_empty in Hbl.
Qed.

Lemma has_established_singleton : has_established ["established"].
Proof. exists "established". split; [by left|reflexivity]. Qed.

Lemma FixHighPorts_established_tcp_udp_witness :
  ∃ mod' l h',
    ACLGenerator.FixHighPorts ACLGenerator.base 1%nat (AStr "inet") false example_terms
    = (Ok mod', h')
    ∧ terms example_terms !! mod' = None
    ∧ lists h' !! l = Some [(1023, 65535)]
    ∧ lists h' !! 1%nat = Some [(1023, 1030)].
Proof.
  destruct (FixHighPorts_established_tcp_udp ACLGenerator.base example_terms 1%nat
              (MkPolicyTerm "t-bad" ["tcp"] ["established"] 1%nat [] []
                 [("foo", PInt 1); ("flatten_x", PInt 1); ("bar", PStr "x")])
              [(1023, 1030)] (AStr "inet") false)
    as (mod' & l & h' & Hrun & Hnew & _ & _ & Hl & _ & Hold).
  - reflexivity.
  - reflexivity.
  - apply base_passes_guards.
  - apply has_established_singleton.
  - intros p Hp. apply elem_of_list_to_set, list_elem_of_singleton in Hp as ->.
    apply elem_of_union. left. by apply elem_of_singleton.
  - exists mod', l, h'. by repeat split.
Defined.

(** C1 without the condition on the address family fails on a numeric
    family: the term has the established option and TCP only,
    and the call raises [UnsupportedAF]. *)
Lemma FixHighPorts_established_tcp_udp_counterexample :
  ∃ t, terms example_terms !! 1%nat = Some t
       ∧ has_established (term_option t)
       ∧ ACLGenerator.effective_protocols ACLGenerator.base t ⊆ {["tcp"; "udp"]}
       ∧ ACLGenerator.FixHighPorts ACLGenerator.base 1%nat (AInt 4) false example_terms
         = (raise UnsupportedAF [PAtom (AInt 4); PStr "t-bad"; PNone], example_terms).
Proof.
  eexists. split; [reflexivity|]. split; [apply has_established_singleton|]. split.
  - intros p Hp. apply elem_of_list_to_set, list_elem_of_singleton in Hp as ->.
    apply elem_of_union. left. by apply elem_of_singleton.
  - vm_compute. reflexivity.
Qed.

Lemma FixHighPorts_established_other_witness :
  ACLGenerator.FixHighPorts ACLGenerator.base 0%nat (AStr "inet") true example_icmp_term
  = (Ok 0%nat, example_icmp_term).
Proof.
  apply (FixHighPorts_established_other ACLGenerator.base example_icmp_term 0%nat
           (MkPolicyTerm "t-icmp" ["icmp"] ["established"] 0%nat [] [] [])
           (AStr "inet") true).
  - reflexivity.
  - apply base_passes_guards.
  - apply has_established_singleton.
  - exists "icmp". split; [|done]. apply elem_of_list_to_set. by left.
  - reflexivity.
Defined.

(** C4 without that condition fails on a numeric family too: the exception is
    [UnsupportedAF], not [EstablishedError]. *)
Lemma FixHighPorts_established_other_counterexample :
  ∃ t, terms example_icmp_term !! 0%nat = Some t
       ∧ has_established (term_option t)
       ∧ "icmp" ∈ ACLGenerator.effective_protocols ACLGenerator.base t
       ∧ ACLGenerator.FixHighPorts ACLGenerator.base 0%nat (AInt 4) false
           example_icmp_term
         = (raise UnsupportedAF [PAtom (AInt 4); PStr "t-icmp"; PNone],
            example_icmp_term)
       ∧ ¬ raises (ACLGenerator.FixHighPorts ACLGenerator.base 0%nat (AInt 4) false
                     example_icmp_term).1 EstablishedError.
Proof.
  eexists. split; [reflexivity|]. split; [apply has_established_singleton|]. split.
  - apply elem_of_list_to_set. by left.
  - split; [vm_compute; reflexivity|]. intros [args H]. vm_compute in H. discriminate H.
Qed.

Lemma FixHighPorts_frame_witness :
  lists (ACLGenerator.FixHighPorts ACLGenerator.base 1%nat (AStr "inet") false
           example_terms).2 !! 1%nat
  = Some [(1023, 1030)].
Proof.
  destruct (ACLGenerator.FixHighPorts ACLGenerator.base 1%nat (AStr "inet") false
              example_terms) as [[mod'|e] h'] eqn:Hrun.
  - destruct (FixHighPorts_frame ACLGenerator.base example_terms 1%nat (AStr "inet")
                false mod' h' Hrun) as (_ & _ & Hl & _).
    by apply Hl.
  - vm_compute in Hrun. discriminate Hrun.
Defined.

Lemma FixHighPorts_numeric_af_witness :
  ACLGenerator.FixHighPorts ACLGenerator.base 1%nat (AInt 4) false example_terms
  = (raise UnsupportedAF [PAtom (AInt 4); PStr "t-bad"; PNone], example_terms).
Proof.
  by apply (FixHighPorts_numeric_af ACLGenerator.base example_terms 1%nat
              (MkPolicyTerm "t-bad" ["tcp"] ["established"] 1%nat [] []
                 [("foo", PInt 1); ("flatten_x", PInt 1); ("bar", PStr "x")]) 4 false).
Defined.

(** * Further properties *)

(** ** The protocol and address family tables *)

Section FlippedDicts.

(** The flipped dict maps a value back to one of its keys. *)
Lemma flipped_lookup_Some (m : gmap string Z) (v : Z) (k : string) :
  (list_to_map ((λ kv : string * Z, (kv.2, kv.1)) <$> map_to_list m) : gmap Z string)
    !! v = Some k →
  m !! k = Some v.
Proof.
  intros H. apply elem_of_list_to_map_2 in H.
  apply list_elem_of_fmap in H as ([k' v'] & [= -> ->] & Hin).
  by apply elem_of_map_to_list in Hin.
Qed.

(** When no two keys share a value, it maps every value back to its key. *)
Lemma flipped_lookup_inj (m : gmap string Z) (v : Z) (k : string) :
  NoDup (map_to_list m).*2 →
  m !! k = Some v →
  (list_to_map ((λ kv : string * Z, (kv.2, kv.1)) <$> map_to_list m) : gmap Z string)
    !! v = Some k.
Proof.
  intros Hnd Hk. apply elem_of_list_to_map_1.
  - by rewrite <- list_fmap_compose.
  - apply list_elem_of_fmap. exists (k, v). split; [done|].
    by apply elem_of_map_to_list.
Qed.

End FlippedDicts.

(** X1. The flipped tables invert the tables they are built from: a protocol
    number maps back to the name that maps to it and the other way round,
    and an address family number maps back to a name of that family. *)
Theorem flipped_maps_round_trip :
  (∀ k v, Term.PROTO_MAP !! k = Some v ↔ Term.PROTO_MAP_BY_NUMBER !! v = Some k)
  ∧ (∀ v k, Term.AF_MAP_BY_NUMBER !! v = Some k → Term.AF_MAP !! k = Some v)
  ∧ (∀ k v, Term.AF_MAP !! k = Some v → is_Some (Term.AF_MAP_BY_NUMBER !! v)).
Proof.
  split; [|split].
  - intros k v. split.
    + apply flipped_lookup_inj. refine (bool_decide_unpack _ _). vm_compute. exact I.
    + apply flipped_lookup_Some.
  - intros v k. apply flipped_lookup_Some.
  - intros k v Hk. apply elem_of_dom. rewrite dom_AF_MAP_BY_NUMBER.
    assert (k ∈ dom Term.AF_MAP) as Hd by (apply elem_of_dom; eauto).
    rewrite dom_AF_MAP in Hd.
    apply elem_of_union in Hd as [Hd|Hd%elem_of_singleton].
    + apply elem_of_union in Hd as [Hd%elem_of_singleton|Hd%elem_of_singleton];
        subst k; vm_compute in Hk; injection Hk as <-.
      * apply elem_of_union. left. by apply elem_of_singleton.
      * apply elem_of_union. right. by apply elem_of_singleton.
    + subst k. vm_compute in Hk. injection Hk as <-.
      apply elem_of_union. left. by apply elem_of_singleton.
Qed.

(** ** The term normaliser, further *)

Section TermExtras.
Import Term.

Variable ICMP_TYPE : IcmpTypeTable.
Variable self_term_name : string.

(** X2. A normalised address family is 4 or 6, and normalising it again
    returns it as it is. *)
Theorem NormalizeAddressFamily_idempotent (af n : pyatom) :
  NormalizeAddressFamily self_term_name af = Ok n →
  (n = AInt 4 ∨ n = AInt 6) ∧ NormalizeAddressFamily self_term_name n = Ok n.
Proof.
  intros H. apply NormalizeAddressFamily_Ok in H. split; [done|].
  unfold NormalizeAddressFamily.
  by rewrite (proj2 (in_AF_MAP_BY_NUMBER_spec n) H).
Qed.

Lemma Forall2_codes_fmap (tbl : gmap string Z) (l : list string) (codes : list Z) :
  Forall2 (λ y c, tbl !! y = Some c) l codes →
  codes = (λ y, default 0 (tbl !! y)) <$> l.
Proof. induction 1 as [|y c l codes Hy _ IH]; [done|]. simpl. by rewrite Hy, IH. Qed.

(** X3. The result does not depend on the order of the ICMP type names: a
    call that succeeds on a list succeeds with the same result on every
    permutation of it. *)
Theorem NormalizeIcmpTypes_permutation (icmp_types icmp_types' protocols : list string)
    (af : pyatom) (rval : list pyatom) :
  icmp_types ≡ₚ icmp_types' →
  NormalizeIcmpTypes ICMP_TYPE self_term_name icmp_types protocols af = Ok rval →
  NormalizeIcmpTypes ICMP_TYPE self_term_name icmp_types' protocols af = Ok rval.
Proof.
  intros Hperm Hr.
  destruct icmp_types as [|x l].
  { apply Permutation_nil_l in Hperm. by subst. }
  destruct icmp_types' as [|x' l'].
  { by apply Permutation_nil_r in Hperm. }
  destruct (decide (protocols = ["icmp"] ∨ protocols = ["icmpv6"])) as [Hp|Hp].
  2:{ rewrite NormalizeIcmpTypes_non_icmp in Hr; [done|tauto|tauto]. }
  destruct (NormalizeIcmpTypes_icmp_cases ICMP_TYPE self_term_name x l protocols af Hp)
    as [(e & _ & He)|[(n & _ & _ & [a Ha])|
        (n & tbl & Hn & Hm & Ht & [[[a Ha] _]|(codes & HF & Hc)])]];
    [rewrite He in Hr; discriminate Hr|rewrite Ha in Hr; discriminate Hr
    |rewrite Ha in Hr; discriminate Hr|].
  destruct (NormalizeIcmpTypes_icmp_cases ICMP_TYPE self_term_name x' l' protocols af Hp)
    as [(e & He' & _)|[(n' & Hn' & Hm' & _)|
        (n' & tbl' & Hn' & _ & Ht' & [(_ & y & Hy & Hnone)|(codes' & HF' & Hc')])]];
    try congruence.
  - assert (n' = n) as -> by congruence.
    assert (tbl' = tbl) as -> by congruence.
    exfalso. rewrite <- Hperm in Hy.
    apply list_elem_of_lookup in Hy as [i Hi].
    destruct (Forall2_lookup_l _ _ _ _ _ HF Hi) as (c & _ & Hcy). congruence.
  - assert (n' = n) as -> by congruence.
    assert (tbl' = tbl) as -> by congruence.
    rewrite Hc', <- Hr, Hc. do 2 f_equal.
    apply (Sorted_unique Z.le).
    + apply (Sorted_merge_sort Z.le).
    + apply (Sorted_merge_sort Z.le).
    + rewrite !merge_sort_Permutation.
      rewrite (Forall2_codes_fmap _ _ _ HF), (Forall2_codes_fmap _ _ _ HF').
      by rewrite Hperm.
Qed.

(** X4. Whatever its arguments, the method raises nothing but the four
    exceptions of its checks; the table subscripts after the checks never
    fail with [KeyError]. *)
Theorem NormalizeIcmpTypes_exceptions (icmp_types protocols : list string)
    (af : pyatom) (e : Exn) :
  NormalizeIcmpTypes ICMP_TYPE self_term_name icmp_types protocols af = Raise e →
  exn_class e ∈ [UnsupportedFilterError; UnsupportedAF; MismatchIcmpInetError;
                 UnknownIcmpTypeError].
Proof.
  intros Hr. destruct icmp_types as [|x l]; [done|].
  destruct (decide (protocols = ["icmp"] ∨ protocols = ["icmpv6"])) as [Hp|Hp].
  2:{ rewrite NormalizeIcmpTypes_non_icmp in Hr; [|tauto|tauto].
      injection Hr as <-. simpl. by left. }
  destruct (NormalizeIcmpTypes_icmp_cases ICMP_TYPE self_term_name x l protocols af Hp)
    as [(e' & Hn & He)|[(n & _ & _ & [a Ha])|
        (n & tbl & Hn & Hm & Ht & [[[a Ha] _]|(codes & HF & Hc)])]].
  - assert (e' = e) as -> by congruence.
    rewrite (NormalizeAddressFamily_Raise _ _ _ Hn). right. by left.
  - rewrite Ha in Hr. injection Hr as <-. simpl. do 2 right. by left.
  - rewrite Ha in Hr. injection Hr as <-. simpl. do 3 right. by left.
  - congruence.
Qed.

(** X5. With the protocols icmp or icmpv6 and a non-empty list of types, an
    address family that is neither 4, 6 nor one of the three names makes the
    method raise the [UnsupportedAF] of [NormalizeAddressFamily]. *)
Theorem NormalizeIcmpTypes_unsupported_af (icmp_types protocols : list string)
    (af : pyatom) :
  icmp_types ≠ [] →
  protocols = ["icmp"] ∨ protocols = ["icmpv6"] →
  af ∉ [AInt 4; AInt 6; AStr "inet"; AStr "inet6"; AStr "bridge"] →
  NormalizeIcmpTypes ICMP_TYPE self_term_name icmp_types protocols af
  = raise UnsupportedAF [PAtom af; PStr self_term_name].
Proof.
  intros Hne Hp Haf. destruct icmp_types as [|x l]; [done|].
  rewrite NormalizeIcmpTypes_icmp by done.
  unfold NormalizeAddressFamily.
  destruct (in_AF_MAP_BY_NUMBER af) eqn:E.
  { apply in_AF_MAP_BY_NUMBER_spec in E. exfalso. apply Haf.
    destruct E as [-> | ->]; [by left|right; by left]. }
  assert (AF_MAP_lookup af = None) as ->; [|done].
  apply AF_MAP_lookup_None.
  rewrite !not_elem_of_cons in Haf. tauto.
Qed.

(** X6. The [UnknownIcmpTypeError] names the first name of the list that
    the table of the address family lacks. *)
Theorem NormalizeIcmpTypes_first_unknown (pre post protocols : list string)
    (y : string) (af n : pyatom) (tbl : gmap string Z) :
  NormalizeAddressFamily self_term_name af = Ok n →
  (protocols = ["icmp"] ∧ n = AInt 4) ∨ (protocols = ["icmpv6"] ∧ n = AInt 6) →
  ICMP_TYPE_getitem ICMP_TYPE n = Ok tbl →
  (∀ x, x ∈ pre → is_Some (tbl !! x)) →
  tbl !! y = None →
  NormalizeIcmpTypes ICMP_TYPE self_term_name (pre ++ y :: post) protocols af
  = raise UnknownIcmpTypeError
      [PStr (NL +:+ "Unrecognized ICMP-type ("); PStr y;
       PStr ") specified in term "; PStr self_term_name].
Proof.
  intros Hn Hm Ht Hpre Hy.
  assert (protocols = ["icmp"] ∨ protocols = ["icmpv6"]) as Hp by tauto.
  assert (icmp_inet_mismatch n protocols = false) as Hmm.
  { destruct (icmp_inet_mismatch n protocols) eqn:E; [|done].
    apply icmp_inet_mismatch_spec in E.
    destruct Hm as [[-> ->]|[-> ->]], E as [[? ?]|[? ?]]; done. }
  assert (check_icmp_types self_term_name tbl (pre ++ y :: post)
          = raise UnknownIcmpTypeError
              [PStr (NL +:+ "Unrecognized ICMP-type ("); PStr y;
               PStr ") specified in term "; PStr self_term_name]) as Hc.
  { clear -Hpre Hy. induction pre as [|x pre IH]; simpl.
    - by rewrite Hy.
    - destruct (Hpre x) as [c ->]; [by left|].
      apply IH. intros. apply Hpre. by right. }
  destruct (pre ++ y :: post) as [|x0 l0] eqn:El.
  { by destruct pre. }
  rewrite NormalizeIcmpTypes_icmp by done.
  rewrite Hn. cbn [mbind result_bind]. rewrite Hmm, Ht. cbn [mbind result_bind].
  by rewrite Hc.
Qed.

End TermExtras.

Lemma NormalizeAddressFamily_idempotent_witness :
  Term.NormalizeAddressFamily "t" (AInt 4) = Ok (AInt 4).
Proof.
  by apply (NormalizeAddressFamily_idempotent "t" (AStr "bridge") (AInt 4)).
Defined.

Lemma NormalizeIcmpTypes_permutation_witness :
  Term.NormalizeIcmpTypes ICMP_TYPE_example "t" ["echo-reply"; "unreachable"]
    ["icmp"] (AStr "inet")
  = Ok [AInt 0; AInt 3].
Proof.
  apply (NormalizeIcmpTypes_permutation ICMP_TYPE_example "t"
           ["unreachable"; "echo-reply"] ["echo-reply"; "unreachable"]).
  - apply perm_swap.
  - vm_compute. reflexivity.
Defined.

Lemma NormalizeIcmpTypes_exceptions_witness :
  exn_class (MkExn MismatchIcmpInetError
               [PStr "ICMP/ICMPv6 mismatch with address family IPv4/IPv6 in term";
                PStr "t"])
  ∈ [UnsupportedFilterError; UnsupportedAF; MismatchIcmpInetError;
     UnknownIcmpTypeError].
Proof.
  apply (NormalizeIcmpTypes_exceptions ICMP_TYPE_example "t"
           ["echo-reply"] ["icmpv6"] (AInt 4)).
  vm_compute. reflexivity.
Defined.

Lemma NormalizeIcmpTypes_unsupported_af_witness :
  Term.NormalizeIcmpTypes ICMP_TYPE_example "t" ["echo-reply"] ["icmp"] (AStr "bogus")
  = raise UnsupportedAF [PAtom (AStr "bogus"); PStr "t"].
Proof.
  apply (NormalizeIcmpTypes_unsupported_af ICMP_TYPE_example "t"
           ["echo-reply"] ["icmp"] (AStr "bogus")); [done|by left|].
  rewrite !not_elem_of_cons. repeat split; try done. apply not_elem_of_nil.
Defined.

Lemma NormalizeIcmpTypes_first_unknown_witness :
  Term.NormalizeIcmpTypes ICMP_TYPE_example "t"
    ["unreachable"; "bogus"; "other"] ["icmp"] (AStr "inet")
  = raise UnknownIcmpTypeError
      [PStr (NL +:+ "Unrecognized ICMP-type ("); PStr "bogus";
       PStr ") specified in term "; PStr "t"].
Proof.
  apply (NormalizeIcmpTypes_first_unknown ICMP_TYPE_example "t"
           ["unreachable"] ["other"] ["icmp"] "bogus" (AStr "inet") (AInt 4)
           (Term.icmp_types_inet ICMP_TYPE_example)).
  - reflexivity.
  - by left.
  - reflexivity.
  - intros x Hx. apply list_elem_of_singleton in Hx as ->. by eexists.
  - reflexivity.
Defined.

(** ** Term names, further *)

Section ReSubExtras.

Variables word abbrev : string.
Hypothesis word_nonempty : word ≠ "".

Lemma replaced_all_length s r :
  (String.length abbrev ≤ String.length word)%nat →
  replaced_all word abbrev s r → (String.length r ≤ String.length s)%nat.
Proof.
  intros Hlen. induction 1 as [s _|x y r _ _ IH]; [done|].
  rewrite !length_append. lia.
Qed.

Lemma replaced_all_absent s r :
  ¬ occurs_in word s → replaced_all word abbrev s r → r = s.
Proof.
  intros Hno Hr. destruct Hr as [s _|x y r _ _]; [done|].
  exfalso. apply Hno. by exists x, y.
Qed.

Lemma re_sub_length s :
  (String.length abbrev ≤ String.length word)%nat →
  (String.length (re_sub word abbrev s) ≤ String.length s)%nat.
Proof.
  intros Hlen. apply replaced_all_length; [done|]. by apply re_sub_replaced_all.
Qed.

Lemma re_sub_absent s : ¬ occurs_in word s → re_sub word abbrev s = s.
Proof. intros Hno. apply replaced_all_absent; [done|]. by apply re_sub_replaced_all. Qed.

End ReSubExtras.

Section FixTermLengthExtras.
Import ACLGenerator.

Variable self : Generator.

(** What a returned name is: it fits, and it is a prefix of the name after
    some number of table entries, none when [abbreviate] is off. *)
Lemma FixTermLength_Ok_inv (name r : string) (abbreviate truncate : bool) :
  FixTermLength self name abbreviate truncate = Ok r →
  (String.length r ≤ _TERM_MAX_LENGTH self)%nat
  ∧ ∃ k y, (k ≤ length (_ABBREVIATION_TABLE self))%nat
           ∧ (abbreviate = false → k = 0%nat)
           ∧ apply_abbreviations (take k (_ABBREVIATION_TABLE self)) name = r +:+ y.
Proof.
  unfold FixTermLength.
  set (max := _TERM_MAX_LENGTH self). set (table := _ABBREVIATION_TABLE self).
  assert (∀ new_term k,
            (k ≤ length table)%nat → (abbreviate = false → k = 0%nat) →
            new_term = apply_abbreviations (take k table) name →
            (let new_term' := if truncate then str_take max new_term else new_term in
             if (String.length new_term' <=? max)%nat then Ok new_term'
             else raise TermNameTooLongError
                    [PStr new_term'; PStr name; PInt (Z.of_nat max);
                     PInt (Z.of_nat (String.length new_term'))]) = Ok r →
            (String.length r ≤ max)%nat
            ∧ ∃ k y, (k ≤ length table)%nat ∧ (abbreviate = false → k = 0%nat)
                     ∧ apply_abbreviations (take k table) name = r +:+ y) as Htail.
  { intros new_term k Hk Hk0 -> Hr. cbv zeta in Hr.
    destruct (String.length _ <=? max)%nat eqn:E; [|done].
    apply Nat.leb_le in E. injection Hr as <-. split; [done|].
    exists k. destruct truncate.
    - destruct (str_take_prefix max (apply_abbreviations (take k table) name)) as [y Hy].
      exists y. by rewrite <- Hy.
    - exists "". by rewrite append_nil_r. }
  destruct abbreviate.
  - pose proof (abbreviate_loop_spec self max table name) as Hloop.
    destruct (abbreviate_loop max table name) as [r'|r'].
    + destruct Hloop as (k & Hk & -> & Hfit & _). intros [= <-]. split; [done|].
      exists k, "". split; [lia|]. split; [done|]. by rewrite append_nil_r.
    + destruct Hloop as [-> _]. apply (Htail _ (length table)); [done|done|].
      by rewrite firstn_all.
  - by apply (Htail name 0%nat); [lia|done|].
Qed.

(** X7. The contract of the docstring: a returned name is never longer than
    the maximum, and it is a prefix of the name after a number of table
    entries, or of the name itself when [abbreviate] is off. *)
Theorem FixTermLength_contract (name r : string) (abbreviate truncate : bool) :
  FixTermLength self name abbreviate truncate = Ok r →
  (String.length r ≤ _TERM_MAX_LENGTH self)%nat
  ∧ (∃ k y, apply_abbreviations (take k (_ABBREVIATION_TABLE self)) name = r +:+ y)
  ∧ (abbreviate = false → ∃ y, name = r +:+ y).
Proof.
  intros (Hlen & k & y & Hk & Hk0 & Hy)%FixTermLength_Ok_inv.
  split; [done|]. split; [by exists k, y|].
  intros Ha. rewrite (Hk0 Ha) in Hy. by exists y.
Qed.

(** X8. With [truncate] the method always returns; a call that raises has
    [truncate] off, and its [TermNameTooLongError] reports an attempted name
    longer than the maximum, the original name, the maximum and the length
    of the attempt. *)
Theorem FixTermLength_raises (name : string) (abbreviate : bool) :
  (∃ r, FixTermLength self name abbreviate true = Ok r)
  ∧ (∀ truncate e,
       FixTermLength self name abbreviate truncate = Raise e →
       truncate = false
       ∧ ∃ new_term,
           (_TERM_MAX_LENGTH self < String.length new_term)%nat
           ∧ e = MkExn TermNameTooLongError
                   [PStr new_term; PStr name; PInt (Z.of_nat (_TERM_MAX_LENGTH self));
                    PInt (Z.of_nat (String.length new_term))]).
Proof.
  assert (∀ truncate e,
            FixTermLength self name abbreviate truncate = Raise e →
            truncate = false
            ∧ ∃ new_term,
                (_TERM_MAX_LENGTH self < String.length new_term)%nat
                ∧ e = MkExn TermNameTooLongError
                        [PStr new_term; PStr name;
                         PInt (Z.of_nat (_TERM_MAX_LENGTH self));
                         PInt (Z.of_nat (String.length new_term))]) as Hraise.
  { intros truncate e. unfold FixTermLength.
    destruct (if abbreviate
              then abbreviate_loop (_TERM_MAX_LENGTH self) (_ABBREVIATION_TABLE self) name
              else inr name) as [r|new_term]; [done|].
    cbv zeta. destruct truncate.
    - rewrite (proj2 (Nat.leb_le _ _)); [done|]. rewrite str_take_length. lia.
    - destruct (String.length new_term <=? _TERM_MAX_LENGTH self)%nat eqn:E; [done|].
      apply Nat.leb_gt in E. intros [= <-]. split; [done|]. by exists new_term. }
  split; [|done].
  destruct (FixTermLength self name abbreviate true) as [r|e] eqn:E; [by exists r|].
  by destruct (Hraise true e E) as [? _].
Qed.

(** X9. A returned name is a fixed point: given back to the method, under
    any flags, it is returned as it is. *)
Theorem FixTermLength_idempotent (name r : string) (abbreviate truncate : bool) :
  FixTermLength self name abbreviate truncate = Ok r →
  ∀ abbreviate' truncate', FixTermLength self r abbreviate' truncate' = Ok r.
Proof.
  intros [Hlen _]%FixTermLength_Ok_inv a t. by apply FixTermLength_short.
Qed.

Lemma apply_abbreviations_length (table : list (string * string)) (s : string) :
  Forall (λ entry, entry.1 ≠ ""
                   ∧ (String.length entry.2 ≤ String.length entry.1)%nat) table →
  (String.length (apply_abbreviations table s) ≤ String.length s)%nat.
Proof.
  intros Htable. revert s.
  induction Htable as [|[w a] table [Hw Ha] _ IH]; intros s; simpl; [done|].
  etrans; [apply IH|]. by apply re_sub_length.
Qed.

Lemma literal_table_words (table : list (string * string)) :
  literal_table table → Forall (λ entry, entry.1 ≠ "") table.
Proof.
  intros Hlit. apply Forall_forall. intros [w a] Hin.
  by apply (literal_table_entry table w a).
Qed.

(** X10. For a table of literal words in which no abbreviation is longer
    than its word, as the table of the base class is: no substitution of an
    entry lengthens a string, the name is never longer after any number of
    entries than it was, and the attempted name that a
    [TermNameTooLongError] reports is never longer than the original name
    it reports. *)
Theorem FixTermLength_never_longer (name : string) (abbreviate : bool) :
  literal_table (_ABBREVIATION_TABLE self) →
  Forall (λ entry, (String.length entry.2 ≤ String.length entry.1)%nat)
         (_ABBREVIATION_TABLE self) →
  (∀ word abbrev s, (word, abbrev) ∈ _ABBREVIATION_TABLE self →
                    (String.length (re_sub word abbrev s) ≤ String.length s)%nat)
  ∧ (∀ k, (String.length (apply_abbreviations (take k (_ABBREVIATION_TABLE self)) name)
           ≤ String.length name)%nat)
  ∧ (∀ truncate new_term args,
       FixTermLength self name abbreviate truncate
       = raise TermNameTooLongError (PStr new_term :: args) →
       (_TERM_MAX_LENGTH self < String.length new_term ≤ String.length name)%nat).
Proof.
  intros Hlit Hshort.
  assert (Forall (λ entry : string * string,
                    entry.1 ≠ ""
                    ∧ (String.length entry.2 ≤ String.length entry.1)%nat)
                 (_ABBREVIATION_TABLE self)) as Htable.
  { apply Forall_and. split; [by apply literal_table_words|done]. }
  split; [|split].
  - intros word abbrev s Hin. rewrite Forall_forall in Htable.
    destruct (Htable _ Hin) as [Hw Ha]. by apply re_sub_length.
  - intros k. apply apply_abbreviations_length. by apply Forall_take.
  - intros truncate new_term args. unfold FixTermLength.
    assert (∀ r, (if abbreviate
                  then abbreviate_loop (_TERM_MAX_LENGTH self)
                         (_ABBREVIATION_TABLE self) name
                  else inr name) = inr r →
                 (String.length r ≤ String.length name)%nat) as Hloop.
    { intros r. destruct abbreviate; [|by intros [= <-]].
      pose proof (abbreviate_loop_spec self (_TERM_MAX_LENGTH self)
                    (_ABBREVIATION_TABLE self) name) as Hspec.
      destruct (abbreviate_loop _ _ name) as [r'|r']; [done|].
      destruct Hspec as [-> _]. intros [= <-].
      by apply apply_abbreviations_length. }
    destruct (if abbreviate
              then abbreviate_loop (_TERM_MAX_LENGTH self) (_ABBREVIATION_TABLE self) name
              else inr name) as [r|r]; [done|].
    specialize (Hloop r eq_refl). cbv zeta. destruct truncate.
    + rewrite (proj2 (Nat.leb_le _ _)); [done|]. rewrite str_take_length. lia.
    + destruct (String.length r <=? _TERM_MAX_LENGTH self)%nat eqn:E; [done|].
      apply Nat.leb_gt in E. intros [= <-]. lia.
Qed.

Lemma apply_abbreviations_absent (table : list (string * string)) (s : string) :
  Forall (λ entry, entry.1 ≠ "" ∧ ¬ occurs_in entry.1 s) table →
  apply_abbreviations table s = s.
Proof.
  induction 1 as [|[w a] table [Hw Hno] _ IH]; simpl; [done|].
  by rewrite re_sub_absent.
Qed.

(** X11. For a table of literal words: on a name in which no word of the
    table occurs, abbreviation changes nothing, and the method behaves with
    [abbreviate] as without. *)
Theorem FixTermLength_no_table_word (name : string) (truncate : bool) :
  literal_table (_ABBREVIATION_TABLE self) →
  Forall (λ entry, ¬ occurs_in entry.1 name) (_ABBREVIATION_TABLE self) →
  FixTermLength self name true truncate = FixTermLength self name false truncate.
Proof.
  intros Hlit Hno.
  assert (Forall (λ entry : string * string, entry.1 ≠ "" ∧ ¬ occurs_in entry.1 name)
                 (_ABBREVIATION_TABLE self)) as Htable.
  { apply Forall_and. split; [by apply literal_table_words|done]. }
  destruct (decide (String.length name ≤ _TERM_MAX_LENGTH self)%nat) as [Hfit|Hlong].
  { by rewrite !FixTermLength_short. }
  assert (∀ j, apply_abbreviations (take j (_ABBREVIATION_TABLE self)) name = name)
    as Hafter.
  { intros j. apply apply_abbreviations_absent. by apply Forall_take. }
  rewrite (FixTermLength_tail self name name true truncate); [|..|lia].
  - by rewrite (FixTermLength_tail self name name false truncate); [|done|lia].
  - rewrite abbreviate_loop_exhausted; [by rewrite Hafter|].
    intros j _. rewrite Hafter. lia.
Qed.

End FixTermLengthExtras.

Lemma base_table_abbreviations_short :
  Forall (λ entry : string * string,
            (String.length entry.2 ≤ String.length entry.1)%nat)
         (ACLGenerator._ABBREVIATION_TABLE ACLGenerator.base).
Proof.
  cbn [ACLGenerator._ABBREVIATION_TABLE ACLGenerator.base].
  repeat (apply Forall_cons; split; [cbn [fst snd]; vm_compute; lia|]).
  constructor.
Qed.

Lemma FixTermLength_contract_witness :
  (String.length "GBL-INT-router-BDR" ≤ 20)%nat.
Proof.
  apply (FixTermLength_contract
           (ACLGenerator.with_TERM_MAX_LENGTH ACLGenerator.base 20)
           "global-internal-router-border" "GBL-INT-router-BDR" true false).
  vm_compute. reflexivity.
Defined.

Lemma FixTermLength_idempotent_witness :
  ACLGenerator.FixTermLength
    (ACLGenerator.with_TERM_MAX_LENGTH ACLGenerator.base 20)
    "GBL-INT-router-BDR" true true
  = Ok "GBL-INT-router-BDR".
Proof.
  apply (FixTermLength_idempotent
           (ACLGenerator.with_TERM_MAX_LENGTH ACLGenerator.base 20)
           "global-internal-router-border" "GBL-INT-router-BDR" true false).
  vm_compute. reflexivity.
Defined.

Lemma FixTermLength_never_longer_witness :
  (String.length (re_sub "global" "GBL" "global-internal-router-border")
   ≤ String.length "global-internal-router-border")%nat
  ∧ (5 < String.length "GBL-INT-RTR-BDR"
     ≤ String.length "global-internal-router-border")%nat.
Proof.
  destruct (FixTermLength_never_longer
              (ACLGenerator.with_TERM_MAX_LENGTH ACLGenerator.base 5)
              "global-internal-router-border" true
              eq_refl base_table_abbreviations_short) as (Hsub & _ & Hraise).
  split.
  - apply Hsub. apply list_elem_of_In. vm_compute. tauto.
  - apply (Hraise false "GBL-INT-RTR-BDR"
             [PStr "global-internal-router-border"; PInt 5; PInt 15]).
    vm_compute. reflexivity.
Defined.

Lemma FixTermLength_no_table_word_witness :
  ACLGenerator.FixTermLength (ACLGenerator.with_TERM_MAX_LENGTH ACLGenerator.base 1)
    "zz" true true
  = ACLGenerator.FixTermLength (ACLGenerator.with_TERM_MAX_LENGTH ACLGenerator.base 1)
      "zz" false true.
Proof.
  apply (FixTermLength_no_table_word
           (ACLGenerator.with_TERM_MAX_LENGTH ACLGenerator.base 1) "zz" true eq_refl).
  cbn [ACLGenerator._ABBREVIATION_TABLE ACLGenerator.with_TERM_MAX_LENGTH
       ACLGenerator.base].
  repeat (apply Forall_cons; split;
          [cbn [fst snd];
           rewrite !occurs_in_cons by done;
           intros [H|[H|H]];
           [vm_compute in H; discriminate H|vm_compute in H; discriminate H
           |by apply not_occurs_in_empty in H]|]).
  constructor.
Defined.

(** ** Construction, further *)

Section InitExtras.
Import ACLGenerator.

Variable self : Generator.

Lemma verify_term_read_only term h r h' : verify_term self term h = (r, h') → h' = h.
Proof.
  unfold verify_term. rewrite M_bind_unfold. unfold get_term.
  destruct (terms h !! term) as [t|]; [|by intros [= _ <-]].
  destruct (nonempty (term_platform t) && _); [by intros [= _ <-]|].
  destruct (nonempty (term_platform_exclude t) && _); [by intros [= _ <-]|].
  rewrite M_bind_unfold. unfold term_items. rewrite M_bind_unfold. unfold get_list.
  destruct (lists h !! term_destination_port t) as [ps|]; [|by intros [= _ <-]].
  cbn [mret M_ret]. destruct (nonempty _); by intros [= _ <-].
Qed.

Lemma verify_terms_read_only ts h r h' : verify_terms self ts h = (r, h') → h' = h.
Proof.
  revert h. induction ts as [|term ts IH]; intros h; simpl; [by intros [= _ <-]|].
  rewrite M_bind_unfold.
  destruct (verify_term self term h) as [[[]|e] h1] eqn:E;
    apply verify_term_read_only in E as ->; [apply IH|by intros [= _ <-]].
Qed.

Lemma verify_terms_outcome ts h :
  (∀ l, l ∈ ts → ∃ t ps, terms h !! l = Some t
                         ∧ lists h !! term_destination_port t = Some ps) →
  verify_terms self ts h = (Ok tt, h)
  ∨ ∃ t err, verify_terms self ts h = (Raise (unsupported_keywords_error self t err), h).
Proof.
  induction ts as [|l ts IH]; intros Hwf; [by left|].
  destruct (Hwf l) as (t & ps & Ht & Hps); [by left|].
  simpl. rewrite M_bind_unfold.
  destruct (live_clean_or_offending self h l t ps Ht Hps) as [Hc|[items Ho]].
  - rewrite verify_term_clean by done. apply IH. intros. apply Hwf. by right.
  - rewrite (verify_term_offending self h l t items Ho). right. by eexists _, _.
Qed.

(** X12. Keyword validation reads the policy and writes nothing: a
    construction that fails in it raises [UnsupportedFilterError] with the
    store as it was, and otherwise [_TranslatePolicy] runs on the store as
    it was. *)
Theorem init_validation_read_only (pol : Policy) (exp_info : pyval) (h : Heap) :
  policy_wf self h pol →
  (∃ args, __init__ self pol exp_info h = (raise UnsupportedFilterError args, h))
  ∨ __init__ self pol exp_info h = _TranslatePolicy self pol exp_info h.
Proof.
  intros Hwf. unfold __init__. rewrite M_bind_unfold, verify_filters_validated.
  destruct (verify_terms_outcome (validated_terms self pol) h Hwf)
    as [->|(t & err & ->)]; [by right|left]. by eexists.
Qed.

(** X13. Headers that do not list the target platform play no part in
    validation: their terms are never looked at, and a policy none of whose
    headers lists the platform goes straight to [_TranslatePolicy]. *)
Theorem init_other_platform_headers (pol : Policy) (exp_info : pyval) (h : Heap) :
  verify_filters self (filters pol) h
  = verify_filters self
      (filter (λ f, platform_in (_PLATFORM self) (header_platforms f.1) = true)
              (filters pol)) h
  ∧ ((∀ f, f ∈ filters pol →
           platform_in (_PLATFORM self) (header_platforms f.1) = false) →
     __init__ self pol exp_info h = _TranslatePolicy self pol exp_info h).
Proof.
  split.
  - revert h. induction (filters pol) as [|[header ts] fs IH]; intros h; [done|].
    rewrite filter_cons. cbn [fst].
    destruct (decide (platform_in (_PLATFORM self) (header_platforms header) = true))
      as [E|E].
    + cbn [verify_filters]. rewrite !M_bind_unfold, E.
      destruct (verify_terms self ts h) as [[[]|e] h1]; [apply IH|done].
    + apply not_true_is_false in E. cbn [verify_filters].
      rewrite M_bind_unfold, E. apply IH.
  - intros Hnone. unfold __init__. rewrite M_bind_unfold.
    assert (verify_filters self (filters pol) h = (Ok tt, h)) as ->; [|done].
    revert Hnone. induction (filters pol) as [|[header ts] fs IH]; intros Hnone; [done|].
    cbn [verify_filters]. rewrite M_bind_unfold.
    pose proof (Hnone (header, ts) ltac:(by left)) as E. cbn [fst] in E. rewrite E.
    apply IH. intros f Hf. apply Hnone. by right.
Qed.

End InitExtras.

(** X14. The base class cannot be constructed: it names no platform, so no
    term is validated, and its [_TranslatePolicy] raises [Error] whatever the
    policy is. *)
Theorem init_base_class (pol : Policy) (exp_info : pyval) (h : Heap) :
  ACLGenerator.__init__ ACLGenerator.base pol exp_info h
  = (raise Error_ [PNone; PStr "does not implement _TranslatePolicies()"], h)
  ∧ validated_terms ACLGenerator.base pol = [].
Proof.
  assert (validated_terms ACLGenerator.base pol = []) as Hv.
  { unfold validated_terms. induction (filters pol) as [|[header ts] fs IH]; [done|].
    cbn [mbind list_bind]. by rewrite IH. }
  split; [|done].
  unfold ACLGenerator.__init__. rewrite M_bind_unfold.
  by rewrite verify_filters_validated, Hv.
Qed.

Lemma init_validation_read_only_witness :
  ∃ args, ACLGenerator.__init__ (ACLGenerator.with_PLATFORM ACLGenerator.base "cisco")
            example_policy PNone example_terms
          = (raise UnsupportedFilterError args, example_terms).
Proof.
  destruct (init_validation_read_only
              (ACLGenerator.with_PLATFORM ACLGenerator.base "cisco")
              example_policy PNone example_terms) as [H|H].
  - intros l Hl. vm_compute in Hl.
    apply elem_of_cons in Hl as [->|Hl]; [by eexists _, _|].
    apply elem_of_cons in Hl as [->|Hl]; [by eexists _, _|].
    by apply elem_of_nil in Hl.
  - exact H.
  - vm_compute in H. discriminate H.
Defined.

Lemma init_other_platform_headers_witness :
  ACLGenerator.__init__ (ACLGenerator.with_PLATFORM ACLGenerator.base "cisco")
    (MkPolicy [(MkHeader ["juniper"], [0%nat; 1%nat])]) PNone example_terms
  = ACLGenerator._TranslatePolicy (ACLGenerator.with_PLATFORM ACLGenerator.base "cisco")
      (MkPolicy [(MkHeader ["juniper"], [0%nat; 1%nat])]) PNone example_terms.
Proof.
  apply (init_other_platform_headers
           (ACLGenerator.with_PLATFORM ACLGenerator.base "cisco")).
  intros f Hf. apply list_elem_of_singleton in Hf as ->. vm_compute. reflexivity.
Defined.

(** ** FixHighPorts, further *)

Section FixHighPortsExtras.
Import ACLGenerator.

Variable self : Generator.

Implicit Types (h : Heap) (t : PolicyTerm) (term : loc) (af : pyatom).

(** The blacklist check, reached once the address family has passed. *)
Lemma FixHighPorts_blacklist_run h term t af aps (blacklist : gset string) :
  terms h !! term = Some t →
  af ∈ _SUPPORTED_AF self →
  _FILTER_BLACKLIST self !! af = Some blacklist →
  blacklist ∩ effective_protocols self t ≠ ∅ →
  FixHighPorts self term af aps h
  = (raise UnsupportedFilter
       [platform_val (_PLATFORM self);
        PStrs (elements (blacklist ∩ effective_protocols self t));
        PAtom af; PStr (term_name t)], h).
Proof.
  intros Ht Haf Hbl Hne. unfold FixHighPorts.
  rewrite M_bind_unfold, (get_term_run _ _ _ Ht). cbv beta iota.
  rewrite bool_decide_eq_false_2 by (intros H; by apply H).
  rewrite M_bind_unfold, Hbl. by rewrite bool_decide_eq_true_2.
Qed.

(** X15. A protocol of the term that is blacklisted for the address family
    makes the call raise [UnsupportedFilter], listing the blacklisted
    protocols of the term, whatever the options and the stateful flag are. *)
Theorem FixHighPorts_blacklisted h term t af aps (blacklist : gset string) :
  terms h !! term = Some t →
  af ∈ _SUPPORTED_AF self →
  _FILTER_BLACKLIST self !! af = Some blacklist →
  blacklist ∩ effective_protocols self t ≠ ∅ →
  FixHighPorts self term af aps h
  = (raise UnsupportedFilter
       [platform_val (_PLATFORM self);
        PStrs (elements (blacklist ∩ effective_protocols self t));
        PAtom af; PStr (term_name t)], h).
Proof. apply FixHighPorts_blacklist_run. Qed.

(** The outcomes of a call on a live term, in the order the code reaches
    them. *)
Lemma FixHighPorts_outcomes h term t ps af aps :
  terms h !! term = Some t →
  lists h !! term_destination_port t = Some ps →
  let r := FixHighPorts self term af aps h in
  (∃ e, r = (Raise e, h)
        ∧ exn_class e ∈ [UnsupportedAF; UnsupportedFilter; EstablishedError])
  ∨ (r = (Ok term, h)
     ∧ ¬ (has_established (term_option t)
          ∧ effective_protocols self t ⊆ {["tcp"; "udp"]}))
  ∨ (r = add_high_ports term h
     ∧ has_established (term_option t)
     ∧ effective_protocols self t ⊆ {["tcp"; "udp"]}).
Proof.
  intros Ht Hps r. subst r.
  destruct (decide (af ∈ _SUPPORTED_AF self)) as [Haf|Haf].
  2:{ left. rewrite (FixHighPorts_unsupported_af self h term t af aps Ht Haf).
      eexists. split; [done|]. simpl. by left. }
  destruct (_FILTER_BLACKLIST self !! af) as [bl|] eqn:Hbl.
  - destruct (decide (bl ∩ effective_protocols self t = ∅)) as [Hi|Hi].
    + assert (passes_guards self t af) as Hg.
      { split; [done|]. intros bl' Hbl'. congruence. }
      rewrite (FixHighPorts_guards self h term t af aps Ht Hg).
      destruct (established_or_not (term_option t)) as [He|Hne].
      * rewrite scan_options_established by done. case_bool_decide as Hp.
        -- right. right. split; [done|]. split; [done|].
           by apply difference_empty_subseteq.
        -- destruct aps; simpl.
           ++ right. left. split; [done|]. intros [_ Hs].
              by apply Hp, difference_empty_subseteq.
           ++ left. eexists. split; [done|]. simpl. do 2 right. by left.
      * rewrite scan_options_none by done. right. left. split; [done|].
        intros [He _]. by eapply established_and_not.
    + left. rewrite (FixHighPorts_blacklist_run h term t af aps bl Ht Haf Hbl Hi).
      eexists. split; [done|]. simpl. right. by left.
  - assert (passes_guards self t af) as Hg.
    { split; [done|]. intros bl' Hbl'. congruence. }
    rewrite (FixHighPorts_guards self h term t af aps Ht Hg).
    destruct (established_or_not (term_option t)) as [He|Hne].
    * rewrite scan_options_established by done. case_bool_decide as Hp.
      -- right. right. split; [done|]. split; [done|].
         by apply difference_empty_subseteq.
      -- destruct aps; simpl.
         ++ right. left. split; [done|]. intros [_ Hs].
            by apply Hp, difference_empty_subseteq.
         ++ left. eexists. split; [done|]. simpl. do 2 right. by left.
    * rewrite scan_options_none by done. right. left. split; [done|].
      intros [He _]. by eapply established_and_not.
Qed.

(** X16. A call that raises leaves every object as it was, and on a live
    term the exception is [UnsupportedAF], [UnsupportedFilter] or
    [EstablishedError]. *)
Theorem FixHighPorts_raise_unchanged h term t ps af aps e h' :
  terms h !! term = Some t →
  lists h !! term_destination_port t = Some ps →
  FixHighPorts self term af aps h = (Raise e, h') →
  h' = h ∧ exn_class e ∈ [UnsupportedAF; UnsupportedFilter; EstablishedError].
Proof.
  intros Ht Hps Hr.
  destruct (FixHighPorts_outcomes h term t ps af aps Ht Hps)
    as [(e' & He & Hc)|[[He _]|[He _]]]; rewrite Hr in He.
  - by injection He as -> ->.
  - done.
  - by rewrite (add_high_ports_run h term t ps Ht Hps) in He.
Qed.

(** X17. Without an established option, a call that passes the address
    family and blacklist checks returns the term it was given and changes
    nothing, whatever the protocols and the stateful flag are. *)
Theorem FixHighPorts_no_established h term t af aps :
  terms h !! term = Some t →
  passes_guards self t af →
  Forall (λ opt, is_established opt = false) (term_option t) →
  FixHighPorts self term af aps h = (Ok term, h).
Proof.
  intros Ht Hg Hne. rewrite (FixHighPorts_guards self h term t af aps Ht Hg).
  by apply scan_options_none.
Qed.

(** X18. A copy is made exactly when the term has an established option and
    only TCP and UDP protocols: a returning call returns a term object other
    than the one it was given in that case and in no other, and when it
    returns the one it was given the store is unchanged. *)
Theorem FixHighPorts_copies_iff h term t ps af aps mod' h' :
  terms h !! term = Some t →
  lists h !! term_destination_port t = Some ps →
  FixHighPorts self term af aps h = (Ok mod', h') →
  (mod' ≠ term ↔ has_established (term_option t)
                 ∧ effective_protocols self t ⊆ {["tcp"; "udp"]})
  ∧ (mod' = term → h' = h).
Proof.
  intros Ht Hps Hr.
  destruct (FixHighPorts_outcomes h term t ps af aps Ht Hps)
    as [(e' & He & Hc)|[[He Hn]|(He & Hest & Hp)]]; rewrite Hr in He.
  - done.
  - injection He as -> ->. split; [|done]. split; [done|]. by intros ?%Hn.
  - rewrite (add_high_ports_run h term t ps Ht Hps) in He.
    injection He as -> ->.
    assert (fresh (dom (terms h)) ≠ term) as Hfresh.
    { intros Heq. pose proof (fresh_terms_None h) as Hnone.
      rewrite Heq in Hnone. congruence. }
    split; [by split|]. by intros ?%Hfresh.
Qed.


Lemma covers_app (l1 l2 : list PortRange) (x : Z) :
  covers (l1 ++ l2) x ↔ covers l1 x ∨ covers l2 x.
Proof.
  unfold covers. split.
  - intros (p & [Hp|Hp]%elem_of_app & Hx); [left|right]; eauto.
  - intros [(p & Hp & Hx)|(p & Hp & Hx)]; exists p; split; try done;
      apply elem_of_app; auto.
Qed.

Lemma covers_high_ports (x : Z) : covers [(1024, 65535)] x ↔ 1024 ≤ x ≤ 65535.
Proof.
  unfold covers, in_range. split.
  - by intros (p & ->%list_elem_of_singleton & Hx).
  - intros Hx. exists (1024, 65535). split; [by left|done].
Qed.

Lemma intervals_high_ports (ps : list PortRange) :
  intervals ps → intervals (ps ++ [(1024, 65535)]).
Proof.
  intros Hps. apply Forall_app. split; [done|]. by repeat constructor.
Qed.

(** Collapsing with the high ports once more changes nothing. *)
Lemma CollapsePortList_high_ports_again (ps : list PortRange) :
  intervals ps →
  Collapse.CollapsePortList
    (Collapse.CollapsePortList (ps ++ [(1024, 65535)]) ++ [(1024, 65535)])
  = Collapse.CollapsePortList (ps ++ [(1024, 65535)]).
Proof.
  intros Hps.
  pose proof (intervals_CollapsePortList _ (intervals_high_ports ps Hps)) as HP.
  apply collapsed_unique.
  - by apply intervals_CollapsePortList, intervals_high_ports.
  - apply Sorted_gap_CollapsePortList.
  - done.
  - apply Sorted_gap_CollapsePortList.
  - intros x. rewrite covers_CollapsePortList, covers_app, !covers_CollapsePortList.
    rewrite covers_app. tauto.
Qed.

(** The copy of the TCP/UDP branch and the list it holds. *)
Lemma FixHighPorts_copy_lookup h term t ps af aps :
  terms h !! term = Some t →
  lists h !! term_destination_port t = Some ps →
  passes_guards self t af →
  has_established (term_option t) →
  effective_protocols self t ⊆ {["tcp"; "udp"]} →
  ∃ mod' l h',
    FixHighPorts self term af aps h = (Ok mod', h')
    ∧ terms h' !! mod' = Some (set_destination_port t l)
    ∧ lists h' !! l = Some (Collapse.CollapsePortList (ps ++ [(1024, 65535)])).
Proof.
  intros Ht Hps Hg He Hp.
  rewrite (FixHighPorts_guards self h term t af aps Ht Hg).
  rewrite scan_options_established by done.
  rewrite bool_decide_eq_true_2 by by apply difference_empty_subseteq.
  rewrite (add_high_ports_run h term t ps Ht Hps). cbv zeta.
  eexists _, _, _. split; [reflexivity|]. cbn [terms lists].
  split; apply lookup_insert_eq.
Qed.

(** In a list in ascending order of lower bounds whose neighbours are
    separated, every two intervals are separated, not only neighbours. *)
Lemma Sorted_low_gap_StronglySorted (l : list PortRange) :
  Sorted low_le l → Sorted gap l → StronglySorted gap l.
Proof.
  intros Hlow%Sorted_StronglySorted; [|intros p q r; unfold low_le; lia].
  induction l as [|p l IH]; intros Hgap; [constructor|].
  apply StronglySorted_inv in Hlow as [Hlow Hall].
  apply Sorted_inv in Hgap as [Hgap Hhd].
  constructor; [by apply IH|].
  destruct l as [|r l]; [constructor|].
  apply HdRel_inv in Hhd. unfold gap in Hhd.
  apply StronglySorted_inv in Hlow as [_ Hr].
  apply Forall_cons. split; [done|].
  eapply Forall_impl; [exact Hr|]. intros q Hq. unfold gap, low_le in *. lia.
Qed.

Lemma StronglySorted_gap_lookup (l : list PortRange) (i j : nat) (p q : PortRange) :
  StronglySorted gap l → (i < j)%nat → l !! i = Some p → l !! j = Some q → gap p q.
Proof.
  intros Hs. revert i j. induction Hs as [|r l _ IH Hall]; intros i j Hij Hi Hj.
  - by rewrite lookup_nil in Hi.
  - destruct j as [|j]; [lia|]. destruct i as [|i].
    + injection Hi as ->. rewrite Forall_forall in Hall.
      apply Hall. by eapply list_elem_of_lookup_2.
    + apply (IH i j); [lia|done..].
Qed.

(** Among intervals separated two by two, a port lies in one at most. *)
Lemma StronglySorted_gap_disjoint (l : list PortRange) (i j : nat) (p q : PortRange)
    (x : Z) :
  StronglySorted gap l → l !! i = Some p → l !! j = Some q →
  in_range p x → in_range q x → i = j.
Proof.
  intros Hs Hi Hj Hp Hq. unfold in_range in *.
  destruct (Nat.lt_trichotomy i j) as [Hlt|[Heq|Hgt]]; [exfalso|done|exfalso].
  - pose proof (StronglySorted_gap_lookup l i j p q Hs Hlt Hi Hj) as Hg.
    unfold gap in Hg. lia.
  - pose proof (StronglySorted_gap_lookup l j i q p Hs Hgt Hj Hi) as Hg.
    unfold gap in Hg. lia.
Qed.

(** X19. The destination ports of the copy are exactly the ports of the
    original together with every port from 1024 to 65535.  The list is in
    ascending order of lower bounds, and every two of its intervals, not
    only neighbours, are separated by at least one port: the later one
    starts more than one port above the end of the earlier one, so that no
    port lies in two of them.  Intervals of the original give intervals. *)
Theorem FixHighPorts_ports_cover h term t ps af aps :
  terms h !! term = Some t →
  lists h !! term_destination_port t = Some ps →
  passes_guards self t af →
  has_established (term_option t) →
  effective_protocols self t ⊆ {["tcp"; "udp"]} →
  ∃ mod' l h' ps',
    FixHighPorts self term af aps h = (Ok mod', h')
    ∧ terms h' !! mod' = Some (set_destination_port t l)
    ∧ lists h' !! l = Some ps'
    ∧ Sorted low_le ps'
    ∧ Sorted gap ps'
    ∧ StronglySorted gap ps'
    ∧ (∀ i j p q, (i < j)%nat → ps' !! i = Some p → ps' !! j = Some q →
                  p.2 + 1 < q.1)
    ∧ (∀ i j p q x, ps' !! i = Some p → ps' !! j = Some q →
                    in_range p x → in_range q x → i = j)
    ∧ (intervals ps → intervals ps')
    ∧ ∀ x, covers ps' x ↔ covers ps x ∨ 1024 ≤ x ≤ 65535.
Proof.
  intros Ht Hps Hg He Hp.
  destruct (FixHighPorts_copy_lookup h term t ps af aps Ht Hps Hg He Hp)
    as (mod' & l & h' & Hr & Hm & Hl).
  exists mod', l, h', (Collapse.CollapsePortList (ps ++ [(1024, 65535)])).
  pose proof (Sorted_low_gap_StronglySorted _
                (Sorted_low_CollapsePortList (ps ++ [(1024, 65535)]))
                (Sorted_gap_CollapsePortList (ps ++ [(1024, 65535)]))) as Hss.
  split; [done|]. split; [done|]. split; [done|].
  split; [apply Sorted_low_CollapsePortList|].
  split; [apply Sorted_gap_CollapsePortList|].
  split; [done|].
  split; [intros i j p q; by apply StronglySorted_gap_lookup|].
  split; [intros i j p q x; by apply StronglySorted_gap_disjoint|].
  split; [intros Hi; by apply intervals_CollapsePortList, intervals_high_ports|].
  intros x. by rewrite covers_CollapsePortList, covers_app, covers_high_ports.
Qed.

(** X20. Fixing a fixed term again makes another copy with the same
    destination ports: on a list of intervals the high ports are added
    once. *)
Theorem FixHighPorts_twice h term t ps af aps :
  terms h !! term = Some t →
  lists h !! term_destination_port t = Some ps →
  intervals ps →
  passes_guards self t af →
  has_established (term_option t) →
  effective_protocols self t ⊆ {["tcp"; "udp"]} →
  ∃ mod1 l1 h1 mod2 l2 h2 ps',
    FixHighPorts self term af aps h = (Ok mod1, h1)
    ∧ FixHighPorts self mod1 af aps h1 = (Ok mod2, h2)
    ∧ terms h1 !! mod1 = Some (set_destination_port t l1)
    ∧ terms h2 !! mod2 = Some (set_destination_port t l2)
    ∧ lists h1 !! l1 = Some ps'
    ∧ lists h2 !! l2 = Some ps'.
Proof.
  intros Ht Hps Hi Hg He Hp.
  destruct (FixHighPorts_copy_lookup h term t ps af aps Ht Hps Hg He Hp)
    as (mod1 & l1 & h1 & Hr1 & Hm1 & Hl1).
  destruct (FixHighPorts_copy_lookup h1 mod1 (set_destination_port t l1) _ af aps
              Hm1 Hl1 Hg He Hp) as (mod2 & l2 & h2 & Hr2 & Hm2 & Hl2).
  exists mod1, l1, h1, mod2, l2, h2,
    (Collapse.CollapsePortList (ps ++ [(1024, 65535)])).
  repeat split; try done.
  by rewrite Hl2, CollapsePortList_high_ports_again.
Qed.

End FixHighPortsExtras.

Lemma example_terms_tcp_only :
  ACLGenerator.effective_protocols ACLGenerator.base
    (MkPolicyTerm "t-bad" ["tcp"] ["established"] 1%nat [] []
       [("foo", PInt 1); ("flatten_x", PInt 1); ("bar", PStr "x")])
  ⊆ {["tcp"; "udp"]}.
Proof.
  intros p Hp. apply elem_of_list_to_set, list_elem_of_singleton in Hp as ->.
  apply elem_of_union. left. by apply elem_of_singleton.
Qed.

Lemma FixHighPorts_blacklisted_witness :
  ACLGenerator.FixHighPorts example_blacklist_generator 0%nat (AStr "inet6") true
    example_icmp_term
  = (raise UnsupportedFilter
       [PStr "cisco"; PStrs (elements ({["icmp"]} ∩ {["icmp"]} : gset string));
        PAtom (AStr "inet6"); PStr "t-icmp"], example_icmp_term).
Proof.
  apply (FixHighPorts_blacklisted example_blacklist_generator example_icmp_term 0%nat
           (MkPolicyTerm "t-icmp" ["icmp"] ["established"] 0%nat [] [] [])
           (AStr "inet6") true {["icmp"]}).
  - reflexivity.
  - apply elem_of_union. right. by apply elem_of_singleton.
  - reflexivity.
  - intros H. apply (not_elem_of_empty (C := gset string) "icmp"). rewrite <- H.
    apply elem_of_intersection. split; [by apply elem_of_singleton|].
    apply elem_of_list_to_set. by left.
Defined.

Lemma FixHighPorts_raise_unchanged_witness :
  ∃ e h', ACLGenerator.FixHighPorts ACLGenerator.base 1%nat (AInt 4) false example_terms
          = (Raise e, h')
          ∧ h' = example_terms.
Proof.
  destruct (ACLGenerator.FixHighPorts ACLGenerator.base 1%nat (AInt 4) false
              example_terms) as [[m|e] h'] eqn:E.
  - vm_compute in E. discriminate E.
  - exists e, h'. split; [done|].
    by eapply (FixHighPorts_raise_unchanged ACLGenerator.base example_terms 1%nat
                 _ _ (AInt 4) false e h' eq_refl eq_refl).
Defined.

Lemma FixHighPorts_no_established_witness :
  ACLGenerator.FixHighPorts ACLGenerator.base 0%nat (AStr "inet") false example_terms
  = (Ok 0%nat, example_terms).
Proof.
  apply (FixHighPorts_no_established ACLGenerator.base example_terms 0%nat
           (MkPolicyTerm "t-other" ["tcp"] [] 0%nat ["juniper"] []
              [("bogus", PBool true)]) (AStr "inet") false).
  - reflexivity.
  - apply base_passes_guards.
  - constructor.
Defined.

Lemma FixHighPorts_copies_iff_witness :
  (ACLGenerator.FixHighPorts ACLGenerator.base 1%nat (AStr "inet") false
     example_terms).1 ≠ Ok 1%nat.
Proof.
  destruct (ACLGenerator.FixHighPorts ACLGenerator.base 1%nat (AStr "inet") false
              example_terms) as [[m|e] h'] eqn:E; [|done].
  simpl. intros [= ->].
  destruct (FixHighPorts_copies_iff ACLGenerator.base example_terms 1%nat
              _ _ (AStr "inet") false 1%nat h' eq_refl eq_refl E) as [[_ H] _].
  apply H; [|done]. split; [apply has_established_singleton|].
  apply example_terms_tcp_only.
Defined.

Lemma FixHighPorts_ports_cover_witness :
  ∃ mod' l h' ps',
    ACLGenerator.FixHighPorts ACLGenerator.base 1%nat (AStr "inet") false example_terms
    = (Ok mod', h')
    ∧ lists h' !! l = Some ps'
    ∧ StronglySorted gap ps'
    ∧ covers ps' 2000.
Proof.
  destruct (FixHighPorts_ports_cover ACLGenerator.base example_terms 1%nat
              _ _ (AStr "inet") false eq_refl eq_refl (base_passes_guards _)
              has_established_singleton example_terms_tcp_only)
    as (mod' & l & h' & ps' & Hr & _ & Hl & _ & _ & Hs & _ & _ & _ & Hc).
  exists mod', l, h', ps'. split; [done|]. split; [done|]. split; [done|].
  apply Hc. right. lia.
Defined.

Lemma FixHighPorts_twice_witness :
  ∃ mod1 l1 h1 mod2 l2 h2 ps',
    ACLGenerator.FixHighPorts ACLGenerator.base 1%nat (AStr "inet") false example_terms
    = (Ok mod1, h1)
    ∧ ACLGenerator.FixHighPorts ACLGenerator.base mod1 (AStr "inet") false h1
      = (Ok mod2, h2)
    ∧ lists h1 !! l1 = Some ps'
    ∧ lists h2 !! l2 = Some ps'.
Proof.
  destruct (FixHighPorts_twice ACLGenerator.base example_terms 1%nat
              _ [(1023, 1030)] (AStr "inet") false eq_refl eq_refl)
    as (mod1 & l1 & h1 & mod2 & l2 & h2 & ps' & Hr1 & Hr2 & _ & _ & Hl1 & Hl2).
  - repeat constructor; simpl; lia.
  - apply base_passes_guards.
  - apply has_established_singleton.
  - apply example_terms_tcp_only.
  - by exists mod1, l1, h1, mod2, l2, h2, ps'.
Defined.
